(** * IntroToCommunication2025, Tirgul #2: the two Fourier demonstrations

    A shallow embedding of the numeric core and of the widget callbacks of
    [dirac_fourier_gui.py] (module [DiracFourierGui]) and of
    [fourier_limit.py] (module [FourierLimit]).

    Number model.  A float64 sample is a real number: arithmetic is exact,
    rounding and overflow are not represented.  The only IEEE special values
    the sources test for, the NaN and the infinities produced by an array
    division by zero, are kept as constructors of [float64].  A real zero
    stands for both float64 zeros; the one primitive whose value depends on
    the sign of a zero, [np.arctan2], therefore returns a [phase], which
    lists both outcomes where the sign decides.
    A numpy array is a [list]; a complex sample is a pair of reals. *)

From Stdlib Require Import String Reals Lra Lia ZArith List Zfloor.
Import ListNotations.
Local Open Scope R_scope.

(** ** Arrays and numpy primitives shared by the two scripts *)

Module Numpy.

(** Result of an elementwise float division under
    [np.errstate(divide='ignore', invalid='ignore')]. *)
Inductive float64 : Type :=
| Fin (r : R)
| Inf (negative : bool)
| NaN.

Definition isnan (v : float64) : bool :=
  match v with NaN => true | _ => false end.

Definition Rltb (a b : R) : bool := if Rlt_dec a b then true else false.
Definition Rleb (a b : R) : bool := if Rle_dec a b then true else false.
Definition Reqb (a b : R) : bool := if Req_dec_T a b then true else false.

(** [a / b] on float64 samples: 0/0 is NaN, x/0 is a signed infinity. *)
Definition divide (a b : R) : float64 :=
  if Reqb b 0 then (if Reqb a 0 then NaN else Inf (Rltb a 0))
  else Fin (a / b).

(** [np.where(cond, x, y)] with scalar [x] and [y]. *)
Definition where_ {A B : Type} (cond : A -> bool) (x y : B) (a : list A) : list B :=
  map (fun v => if cond v then x else y) a.

(** [a[mask(a)] = v]: boolean-mask assignment of a scalar. *)
Definition mask_fill {A : Type} (mask : A -> bool) (v : A) (a : list A) : list A :=
  map (fun x => if mask x then v else x) a.

(** [np.ones_like(a)]. *)
Definition ones_like {A : Type} (a : list A) : list float64 :=
  map (fun _ => Fin 1) a.

(** [np.arange(0, num)] as float samples, and [np.arange(start, stop)] on
    integers (empty when [stop <= start]). *)
Definition arange0 (num : nat) : list R := map INR (seq 0 num).

Definition arange (start stop : Z) : list Z :=
  map (fun i => (start + Z.of_nat i)%Z) (seq 0 (Z.to_nat (stop - start))).

(** [np.linspace(start, stop, num)] (endpoint included): [num] samples
    [start + i * step] with [step = (stop - start) / (num - 1)], the last one
    overwritten with [stop]. *)
Definition linspace (start stop : R) (num : nat) : list R :=
  let div := INR (num - 1) in
  let step := (stop - start) / div in
  let y := map (fun i => i * step + start) (arange0 num) in
  if (1 <? num)%nat then removelast y ++ [stop] else y.

(** [np.linspace(start, stop, num, endpoint=False)]. *)
Definition linspace_open (start stop : R) (num : nat) : list R :=
  let step := (stop - start) / INR num in
  map (fun i => i * step + start) (arange0 num).

(** [np.log10] on a positive sample and [np.power(10, y)]. *)
Definition log10 (x : R) : R := Rlog 10 x.
Definition power10 (y : R) : R := Rpower 10 y.

(** [np.logspace(start, stop, num)]: [10 ** linspace(start, stop, num)]. *)
Definition logspace (start stop : R) (num : nat) : list R :=
  map power10 (linspace start stop num).

(** Complex samples [re + im j]. *)
Definition C : Type := (R * R)%type.

Definition RtoC (r : R) : C := (r, 0).
Definition Ci : C := (0, 1).
Definition Cadd (a b : C) : C := (fst a + fst b, snd a + snd b).
Definition Csub (a b : C) : C := (fst a - fst b, snd a - snd b).
Definition Copp (a : C) : C := (- fst a, - snd a).
Definition Cmul (a b : C) : C :=
  (fst a * fst b - snd a * snd b, fst a * snd b + snd a * fst b).
Definition Cexp (z : C) : C :=
  (exp (fst z) * cos (snd z), exp (fst z) * sin (snd z)).

(** [np.abs] of a complex sample. *)
Definition Cabs (z : C) : R := sqrt (fst z * fst z + snd z * snd z).

(** What [np.arctan2(y, x)] returns.  Off the nonpositive [x] axis the two
    numbers fix the result.  On it [y] is a float64 zero and the result is
    read off the sign bits: [arctan2(+0.0, x) = pi] and
    [arctan2(-0.0, x) = -pi] for [x < 0]; [arctan2(+-0.0, +0.0) = +-0.0] and
    [arctan2(+-0.0, -0.0) = +-pi]. *)
Inductive phase : Type :=
| Angle (theta : R)   (* fixed by the values of y and x *)
| Cut                 (* y = +-0.0 and x < 0 *)
| Origin.             (* y = +-0.0 and x = +-0.0 *)


(** [np.arctan2(y, x)]. *)
Definition arctan2 (y x : R) : phase :=
  if Rltb 0 x then Angle (atan (y / x))
  else if Rltb x 0 then
    (if Rltb 0 y then Angle (atan (y / x) + PI)
     else if Rltb y 0 then Angle (atan (y / x) - PI)
     else Cut)
  else if Rltb 0 y then Angle (PI / 2)
  else if Rltb y 0 then Angle (- (PI / 2))
  else Origin.

(** [np.angle(z)]: [arctan2(z.imag, z.real)]. *)
Definition angle (z : C) : phase := arctan2 (snd z) (fst z).

Definition Ceqb (a b : C) : bool := (Reqb (fst a) (fst b) && Reqb (snd a) (snd b))%bool.

(** The quotient of two complex samples, for a nonzero divisor. *)
Definition Cdiv (a b : C) : C :=
  let d := fst b * fst b + snd b * snd b in
  ((fst a * fst b + snd a * snd b) / d, (snd a * fst b - fst a * snd b) / d).

(** Complex [a / b] as numpy evaluates it; [None] records a division by zero
    (numpy warns and stores NaN or infinities). *)
Definition Cdivide (a b : C) : option C :=
  if Ceqb b (RtoC 0) then None else Some (Cdiv a b).

(** Elementwise binary operation on two arrays of one shape. *)
Fixpoint zip_with {A B D : Type} (f : A -> B -> D) (a : list A) (b : list B) : list D :=
  match a, b with
  | x :: a', y :: b' => f x y :: zip_with f a' b'
  | _, _ => []
  end.

(** Elementwise fallible operation; the first failure aborts. *)
Fixpoint mapM {A B : Type} (f : A -> option B) (a : list A) : option (list B) :=
  match a with
  | [] => Some []
  | x :: a' =>
      match f x with
      | None => None
      | Some y =>
          match mapM f a' with
          | None => None
          | Some ys => Some (y :: ys)
          end
      end
  end.

(** [a[idx]] for a boolean mask [idx]. *)
Fixpoint select {A : Type} (idx : list bool) (a : list A) : list A :=
  match idx, a with
  | true :: idx', x :: a' => x :: select idx' a'
  | false :: idx', _ :: a' => select idx' a'
  | _, _ => []
  end.

(** [a[idx] = vals]: the i-th selected position receives the i-th value. *)
Fixpoint mask_assign {A : Type} (a : list A) (idx : list bool) (vals : list A) : list A :=
  match a, idx with
  | x :: a', true :: idx' =>
      match vals with
      | v :: vals' => v :: mask_assign a' idx' vals'
      | [] => x :: mask_assign a' idx' []
      end
  | x :: a', false :: idx' => x :: mask_assign a' idx' vals
  | _, _ => a
  end.

(** [a[idx] = v]: scalar broadcast over the selected positions. *)
Definition mask_assign_scalar {A : Type} (a : list A) (idx : list bool) (v : A) : list A :=
  zip_with (fun x (b : bool) => if b then v else x) a idx.

(** [np.diff(x)]. *)
Definition diff (x : list R) : list R := zip_with Rminus (tl x) (removelast x).

Definition Csum (l : list C) : C := fold_right Cadd (RtoC 0) l.

(** A complex sample divided by a nonzero float constant. *)
Definition Cdiv_real (z : C) (r : R) : C := (fst z / r, snd z / r).

(** [np.trapz(y, x)]: [(d * (y[1:] + y[:-1]) / 2.0).sum()] with [d = diff(x)]. *)
Definition trapz (y : list C) (x : list R) : C :=
  let d := diff x in
  Csum (zip_with (fun di s => Cdiv_real (Cmul (RtoC di) s) 2.0)
          d (zip_with Cadd (tl y) (removelast y))).

(** The term of index [i] of [np.trapz] when the arrays are [y i] and [x i]. *)
Definition trapezoid (y : nat -> C) (x : nat -> R) (i : nat) : C :=
  Cdiv_real (Cmul (RtoC (x (S i) - x i)) (Cadd (y (S i)) (y i))) 2.0.

(** [np.conj]. *)
Definition Cconj (z : C) : C := (fst z, - snd z).

End Numpy.

(** ** The Python runtime: float division and exceptions *)

Module Python.
Import Numpy.

(** Python's float [a / b]: ZeroDivisionError ([None]) when [b] is zero. *)
Definition truediv (a b : R) : option R :=
  if Reqb b 0 then None else Some (a / b).

(** A raised object.  [is_Exception] tells whether it is an instance of
    [Exception]; KeyboardInterrupt, SystemExit and GeneratorExit derive from
    [BaseException] only. *)
Inductive exn : Type :=
| Exn (is_Exception : bool) (msg : string).

Definition str (e : exn) : string := match e with Exn _ m => m end.

Definition isinstance_Exception (e : exn) : bool :=
  match e with Exn b _ => b end.

(** How a call ends. *)
Inductive outcome : Type :=
| Returned
| Raised (e : exn).

(** What the user sees of Tk. *)
Inductive gui_event : Type :=
| TkRoot                              (* root = tk.Tk() *)
| Withdraw                            (* root.withdraw() *)
| ShowError (title message : string). (* messagebox.showerror, modal *)

(** How the Tk calls of an exception handler behave on the machine the script
    runs on: [None] when the call returns, [Some e'] when it raises [e']
    (tkinter not installed, no display, the window destroyed, ...). *)
Record tk : Type := {
  import_tkinter : option exn;   (* import tkinter as tk; from tkinter import messagebox *)
  Tk : option exn;               (* tk.Tk() *)
  withdraw : option exn;         (* root.withdraw() *)
  showerror : option exn         (* messagebox.showerror(title, message) *)
}.



Definition newline : string := String (Ascii.ascii_of_nat 10) EmptyString.

End Python.

(** ** Script one: [dirac_fourier_gui.py] *)

Module DiracFourierGui.
Import Numpy Python.

Definition rect (t : list R) (width : R) : list R :=
  where_ (fun ti => Rleb (Rabs ti) (width / 2)) 1 0 t.

Definition dirac_rect (t : list R) (epsilon : R) : option (list R) :=
  match truediv 1 epsilon with
  | None => None
  | Some h => Some (map (Rmult h) (rect t epsilon))
  end.

(** The pulse as a function of time: [dirac_rect] on a one-sample array. *)
Definition dirac_rect_sample (epsilon t : R) : R :=
  match dirac_rect [t] epsilon with
  | Some [y] => y
  | _ => 0
  end.

Definition compute_ft (f : list R) (epsilon : R) : list float64 :=
  if Rltb epsilon 0.005 then ones_like f
  else
    let x := map (fun fi => PI * fi * epsilon) f in
    let y := map (fun xi => divide (sin xi) xi) x in
    mask_fill isnan (Fin 1) y.

(** Locals of [main] that the callbacks close over. *)
Definition min_width : R := 0.001.
Definition max_width : R := 2.0.
Definition init_width : R := 0.5.

(** The timer made by [fig.canvas.new_timer(interval=50)], started. *)
Record timer : Type := { interval : Z }.

(** The widget state and the [nonlocal] animation variables. *)
Record gui : Type := {
  slider_val : R;                       (* width_slider.val *)
  button_label : string;                (* play_button.label *)
  animation_active : bool;
  animation_timer : option timer;
  animation_frames : option (list R);
  current_frame : nat
}.

Definition initial_gui : gui :=
  {| slider_val := init_width;
     button_label := "Play Animation";
     animation_active := false;
     animation_timer := None;
     animation_frames := None;
     current_frame := 0 |}.

(** The slider parked at its minimum, the animation idle. *)
Definition gui_at_minimum : gui :=
  {| slider_val := min_width;
     button_label := "Play Animation";
     animation_active := false;
     animation_timer := None;
     animation_frames := None;
     current_frame := 0 |}.

(** [play_clicked(event)]. *)
Definition play_clicked (g : gui) : gui :=
  if animation_active g then
    {| slider_val := slider_val g;
       button_label := "Play Animation";
       animation_active := false;
       animation_timer := None;
       animation_frames := animation_frames g;
       current_frame := current_frame g |}
  else
    let current_width := slider_val g in
    let frames :=
      if Rleb current_width min_width
      then logspace (log10 max_width) (log10 min_width) 100
      else logspace (log10 current_width) (log10 min_width) 100 in
    {| slider_val := slider_val g;
       button_label := "Stop Animation";
       animation_active := true;
       animation_timer := Some {| interval := 50 |};
       animation_frames := Some frames;
       current_frame := 0 |}.

(** [step_animation()], run by every timer tick.  [width_slider.set_val]
    stores the frame in the slider (and redraws through [slider_update]). *)
Definition step_animation (g : gui) : gui :=
  let frames := match animation_frames g with Some fr => fr | None => [] end in
  let finished (g' : gui) : gui :=
    {| slider_val := slider_val g';
       button_label := "Play Animation";
       animation_active := false;
       animation_timer := None;
       animation_frames := animation_frames g';
       current_frame := current_frame g' |} in
  if (negb (animation_active g) || (length frames <=? current_frame g)%nat)%bool then
    finished g
  else
    let width := nth (current_frame g) frames 0 in
    let g1 :=
      {| slider_val := width;
         button_label := button_label g;
         animation_active := animation_active g;
         animation_timer := animation_timer g;
         animation_frames := animation_frames g;
         current_frame := S (current_frame g) |} in
    if (length frames <=? current_frame g1)%nat then finished g1 else g1.

(** [timer_tick()]: the callback of a running timer. *)
Definition timer_tick (g : gui) : gui :=
  match animation_timer g with
  | Some _ => step_animation g
  | None => g
  end.

(** [n] timer ticks. *)
Fixpoint ticks (n : nat) (g : gui) : gui :=
  match n with
  | O => g
  | S k => ticks k (timer_tick g)
  end.

(** The sampling set up at the top of [main]. *)
Definition fs : nat := 1000.
Definition time_range : R := 5.
Definition freq_range : R := 20.
Definition t_axis : list R := linspace (- time_range) time_range (fs * 2).
Definition f_axis : list R := linspace (- freq_range) freq_range (fs * 2).

(** What [update_plots(width)] hands to the two axes: the pulse samples, the
    upper y-limit of the time axes (the lower one is 0), the transform
    samples, the two alpha values of the crossfade, and the width shown in
    the title. *)
Record view : Type := {
  y_time : list R;
  ylim_top : R;
  y_freq : list float64;
  flat_alpha : R;                       (* flat_line.set_alpha *)
  freq_alpha : R;                       (* freq_plot.set_alpha *)
  title_width : R
}.

(** [update_plots(width)] of [main]; [None] when [dirac_rect] raises. *)
Definition update_plots (width : R) : option view :=
  match dirac_rect t_axis width with
  | None => None
  | Some y =>
      let max_height := if Rltb 0 width then 1.0 / width else 1.0 in
      let top := Rmax 1.2 (max_height * 1.1) in
      let y_f := compute_ft f_axis width in
      let alphas :=
        if Rltb width 0.01 then
          let alpha_val := 1.0 - width / 0.01 in
          (alpha_val, 1.0 - alpha_val)
        else (0, 1.0) in
      Some {| y_time := y;
              ylim_top := top;
              y_freq := y_f;
              flat_alpha := fst alphas;
              freq_alpha := snd alphas;
              title_width := width |}
  end.

(** [slider_update(val)]: the redraw for the value the slider holds. *)
Definition slider_update (g : gui) : option view := update_plots (slider_val g).

(** What the event loop delivers: a click on the play button, a tick of the
    animation timer, the user dragging the slider to [v]. *)
Inductive event : Type :=
| PlayClicked
| TimerTick
| SliderMoved (v : R).

Definition set_slider (v : R) (g : gui) : gui :=
  {| slider_val := v;
     button_label := button_label g;
     animation_active := animation_active g;
     animation_timer := animation_timer g;
     animation_frames := animation_frames g;
     current_frame := current_frame g |}.

Definition handle (g : gui) (ev : event) : gui :=
  match ev with
  | PlayClicked => play_clicked g
  | TimerTick => timer_tick g
  | SliderMoved v => set_slider v g
  end.

Definition run (evs : list event) (g : gui) : gui := fold_left handle evs g.

(** The slider widget only stores values of its range. *)
Definition admissible (ev : event) : Prop :=
  match ev with
  | SliderMoved v => min_width <= v <= max_width
  | _ => True
  end.

(** The statements of the [except] block, in order.  A statement that raises
    ends the block at once with its own exception; the events of the
    statements before it have happened.  [showerror] is modal: when it
    raises, no dialog was shown. *)
Definition handler (env : tk) (e : exn) : list gui_event * outcome :=
  match import_tkinter env with
  | Some e' => ([], Raised e')
  | None =>
      match Tk env with
      | Some e' => ([], Raised e')
      | None =>
          match withdraw env with
          | Some e' => ([TkRoot], Raised e')
          | None =>
              match showerror env with
              | Some e' => ([TkRoot; Withdraw], Raised e')
              | None =>
                  ([TkRoot; Withdraw;
                    ShowError "Error"
                      ("An error occurred: " ++ str e ++ newline ++ newline
                       ++ "Please report this issue.")%string],
                   Raised e)                             (* raise e *)
              end
          end
      end
  end.

(** The [__main__] block: the events it performs, in order, and how the
    script ends.  [main_result] is the outcome of the call [main()];
    [except Exception as e] catches the instances of [Exception] only. *)
Definition script (env : tk) (main_result : outcome) : list gui_event * outcome :=
  match main_result with
  | Returned => ([], Returned)
  | Raised e =>
      if isinstance_Exception e then handler env e
      else ([], Raised e)
  end.

(** The handler's contract at an exception [e]: a dialog is shown and the
    script ends by raising [e] again. *)
Definition dialog_then_reraise (env : tk) (e : exn) : Prop :=
  (exists title message,
      In (ShowError title message) (fst (script env (Raised e)))) /\
  snd (script env (Raised e)) = Raised e.

End DiracFourierGui.

(** ** Script two: [fourier_limit.py] *)

Module FourierLimit.
Import Numpy Python.

Definition T1 : R := 1.0.

(** [np.mod(t, T)] for a nonzero period. *)
Definition mod_ (t T : R) : R := t - T * IZR (Zfloor (t / T)).

Definition x_periodic_time_domain (t : list R) (T : R) : list R :=
  where_ (fun tm => (Rleb 0 tm && Rltb tm T1)%bool) 1 0
    (map (fun ti => mod_ ti T) t).

(** Samples of the integration grid. *)
Definition N : nat := Z.to_nat 10001.

(** The exponent [-1j * 2 * np.pi * v * t]. *)
Definition phase_arg (v t : R) : C :=
  Cmul (Cmul (Cmul (Cmul (Copp Ci) (RtoC 2)) (RtoC PI)) (RtoC v)) (RtoC t).

(** The body of the loop [for n in n_vals]. *)
Definition Cn_val (T : R) (t_int x_int : list R) (n : Z) : C :=
  let exp_term := map (fun t => Cexp (phase_arg (IZR n / T) t)) t_int in
  let integral :=
    trapz (zip_with (fun x e => Cmul (RtoC x) e) x_int exp_term) t_int in
  Cmul (RtoC (1.0 / T)) integral.

(** [compute_fourier_series(T, f_max)]: the pair [(fn, Cn)].  A zero period
    (division by zero in [n_vals / T] and [1.0 / T]) is outside the model:
    [None]. *)
Definition compute_fourier_series (T f_max : R) : option (list R * list C) :=
  if Reqb T 0 then None
  else
    let t_int := linspace_open 0 T N in
    let x_int := where_ (fun t => Rltb t T1) 1 0 t_int in
    let n_max := Zfloor (f_max * T) in
    let n_vals := arange (- n_max) (n_max + 1) in
    let fn := map (fun n => IZR n / T) n_vals in
    let Cn := map (Cn_val T t_int x_int) n_vals in
    Some (fn, Cn).

(** [continuous_transform_rect(f)]; [None] when a quotient is evaluated at a
    zero denominator. *)
Definition continuous_transform_rect (f : list R) : option (list C) :=
  let Xf := map (fun _ => RtoC 0) f in
  let idx := map (fun fi => negb (Reqb fi 0)) f in
  match
    mapM (fun fi =>
            Cdivide (Csub (RtoC 1) (Cexp (phase_arg fi T1)))
                    (Cmul (Cmul (Cmul Ci (RtoC 2)) (RtoC PI)) (RtoC fi)))
         (select idx f)
  with
  | None => None
  | Some q =>
      let Xf := mask_assign Xf idx q in
      Some (mask_assign_scalar Xf (map negb idx) (RtoC T1))
  end.

Definition get_time_axis : list R := linspace 0 20 2000.

Definition T0 : R := 4.0.

(** The arrays [update_plots(T)] hands to the three axes. *)
Record plots : Type := {
  t_plot : list R;
  x_plot : list R;
  fn : list R;
  Cn_mag : list R;
  Cn_phase : list phase;
  num_coeffs : Z;
  f_cont : list R;
  Xf_mag : list R;
  Xf_phase : list phase;
  Xf_mag_scaled : list R              (* Xf_mag / T, the dashed overlay *)
}.

Definition update_plots (T : R) : option plots :=
  let t_plot := get_time_axis in
  let x_plot := x_periodic_time_domain t_plot T in
  let f_max := 10.0 in
  match compute_fourier_series T f_max with
  | None => None
  | Some (fn, Cn) =>
      let n_max := Zfloor (f_max * T) in
      let f_cont := linspace (- f_max) f_max 2001 in
      match continuous_transform_rect f_cont with
      | None => None
      | Some Xf =>
          Some {| t_plot := t_plot;
                  x_plot := x_plot;
                  fn := fn;
                  Cn_mag := map Cabs Cn;
                  Cn_phase := map angle Cn;
                  num_coeffs := 2 * n_max + 1;
                  f_cont := f_cont;
                  Xf_mag := map Cabs Xf;
                  Xf_phase := map angle Xf;
                  Xf_mag_scaled := map (fun m => m / T) (map Cabs Xf) |}
      end
  end.


(** [X(f)]: the transform at a single frequency. *)
Definition X_at (f : R) : C :=
  match continuous_transform_rect [f] with
  | Some [z] => z
  | _ => RtoC 0
  end.

(** The distance between a coefficient magnitude [|Cn|] and the overlay
    value [|X(fn)| / T] at the same frequency. *)
Definition deviation (T : R) (Cn_k : C) (fn_k : R) : R :=
  Rabs (Cabs Cn_k - Cabs (X_at fn_k) / T).

(** "The magnitudes converge to the scaled transform as the coefficient
    count grows": every tolerance is met by all coefficients once the count
    is large enough. *)
Definition magnitudes_converge (T : R) : Prop :=
  forall eps : R, 0 < eps ->
  exists M : nat,
    forall (f_max : R) (fn : list R) (Cn : list C),
      compute_fourier_series T f_max = Some (fn, Cn) ->
      (M <= length Cn)%nat ->
      forall k, (k < length Cn)%nat ->
        deviation T (nth k Cn (RtoC 0)) (nth k fn 0) < eps.

(** The harmonic [exp(-1j * alpha * t)] and its integral over [0, t]. *)
Definition harmonic (alpha t : R) : C := (cos (alpha * t), - sin (alpha * t)).

Definition harmonic_integral (alpha t : R) : C :=
  if Reqb alpha 0 then (t, 0)
  else (sin (alpha * t) / alpha, (cos (alpha * t) - 1) / alpha).

(** The integrand sample of index [i]: [x_int[i] * exp_term[i]] on the grid
    of step [h]. *)
Definition integrand (alpha h : R) (i : nat) : C :=
  Cmul (RtoC (if Rltb (INR i * h) T1 then 1 else 0)) (harmonic alpha (INR i * h)).

(** Script two runs its body unguarded: what the body raises is what the
    script raises, and no dialog is shown. *)
Definition script (body_result : outcome) : list gui_event * outcome :=
  ([], body_result).

End FourierLimit.

(** * Properties *)

(** ** Comparisons and array lemmas *)

Section Basics.
Import Numpy.

Lemma Rltb_true a b : a < b -> Rltb a b = true.
Proof. intros H; unfold Rltb; destruct (Rlt_dec a b); [reflexivity | contradiction]. Qed.

Lemma Rltb_false a b : ~ a < b -> Rltb a b = false.
Proof. intros H; unfold Rltb; destruct (Rlt_dec a b); [contradiction | reflexivity]. Qed.

Lemma Rleb_true a b : a <= b -> Rleb a b = true.
Proof. intros H; unfold Rleb; destruct (Rle_dec a b); [reflexivity | contradiction]. Qed.

Lemma Rleb_false a b : ~ a <= b -> Rleb a b = false.
Proof. intros H; unfold Rleb; destruct (Rle_dec a b); [contradiction | reflexivity]. Qed.

Lemma Reqb_true a b : a = b -> Reqb a b = true.
Proof. intros H; unfold Reqb; destruct (Req_dec_T a b); [reflexivity | contradiction]. Qed.

Lemma Reqb_false a b : a <> b -> Reqb a b = false.
Proof. intros H; unfold Reqb; destruct (Req_dec_T a b); [contradiction | reflexivity]. Qed.

Lemma nth_map_lt {A B : Type} (f : A -> B) (l : list A) (i : nat) (d : B) (d' : A) :
  (i < length l)%nat -> nth i (map f l) d = f (nth i l d').
Proof.
  intros H. rewrite (nth_indep _ d (f d')) by now rewrite length_map.
  apply map_nth.
Qed.

Lemma length_arange0 n : length (arange0 n) = n.
Proof. unfold arange0. now rewrite length_map, length_seq. Qed.

Lemma nth_arange0 n i : (i < n)%nat -> nth i (arange0 n) 0 = INR i.
Proof.
  intros H. unfold arange0.
  change 0 with (INR 0). rewrite map_nth, seq_nth by exact H. reflexivity.
Qed.

End Basics.

(** ** The rectangular pulse and its transform *)

Section DiracPulse.
Import Numpy Python DiracFourierGui.

Lemma dirac_rect_map (t : list R) (epsilon : R) :
  epsilon <> 0 ->
  dirac_rect t epsilon =
  Some (map (fun ti => if Rle_dec (Rabs ti) (epsilon / 2) then 1 / epsilon else 0) t).
Proof.
  intros Heps. unfold dirac_rect, truediv.
  rewrite Reqb_false by exact Heps.
  unfold rect, where_. rewrite map_map. f_equal.
  apply map_ext; intros ti. unfold Rleb.
  destruct (Rle_dec (Rabs ti) (epsilon / 2)); lra.
Qed.

Lemma dirac_rect_sample_inside (epsilon t : R) :
  0 < epsilon -> Rabs t <= epsilon / 2 -> dirac_rect_sample epsilon t = 1 / epsilon.
Proof.
  intros Heps Ht. unfold dirac_rect_sample. rewrite dirac_rect_map by lra.
  cbn [map]. destruct (Rle_dec (Rabs t) (epsilon / 2)); [reflexivity | contradiction].
Qed.

Lemma dirac_rect_sample_outside (epsilon t : R) :
  0 < epsilon -> epsilon / 2 < Rabs t -> dirac_rect_sample epsilon t = 0.
Proof.
  intros Heps Ht. unfold dirac_rect_sample. rewrite dirac_rect_map by lra.
  cbn [map]. destruct (Rle_dec (Rabs t) (epsilon / 2)); [lra | reflexivity].
Qed.

(** C1.  For a positive width the call returns an array of the length of
    the time axis whose sample at every time [t] is [1/epsilon] where
    [|t| <= epsilon/2] and [0] elsewhere: a rectangle of height [1/epsilon]
    and width [epsilon]. *)
Theorem dirac_rect_rectangular (t : list R) (epsilon : R) :
  0 < epsilon ->
  exists y,
    dirac_rect t epsilon = Some y /\
    y = map (fun ti => if Rle_dec (Rabs ti) (epsilon / 2) then 1 / epsilon else 0) t /\
    length y = length t /\
    forall i, (i < length t)%nat ->
      nth i y 0 = if Rle_dec (Rabs (nth i t 0)) (epsilon / 2) then 1 / epsilon else 0.
Proof.
  intros Heps. eexists. split; [apply dirac_rect_map; lra |].
  split; [reflexivity |]. split; [apply length_map |].
  intros i Hi. now rewrite (nth_map_lt _ _ _ _ 0).
Qed.

Lemma dirac_rect_rectangular_witness :
  exists y,
    dirac_rect [0; 1] (1 / 2) = Some y /\
    y = map (fun ti => if Rle_dec (Rabs ti) (1 / 2 / 2) then 1 / (1 / 2) else 0) [0; 1] /\
    length y = length [0; 1] /\
    forall i, (i < length [0; 1])%nat ->
      nth i y 0 = if Rle_dec (Rabs (nth i [0; 1] 0)) (1 / 2 / 2) then 1 / (1 / 2) else 0.
Proof. apply (dirac_rect_rectangular [0; 1] (1 / 2)). lra. Defined.

(** C2.  Below the threshold 0.005 the transform is the all-ones array;
    from the threshold on it is [sin(pi f eps) / (pi f eps)] sample by
    sample, and 1 where [f = 0]. *)
Theorem compute_ft_sinc (f : list R) (epsilon : R) :
  compute_ft f epsilon =
  if Rlt_dec epsilon 0.005 then map (fun _ => Fin 1) f
  else map (fun fi => if Req_dec_T fi 0 then Fin 1
                      else Fin (sin (PI * fi * epsilon) / (PI * fi * epsilon))) f.
Proof.
  unfold compute_ft, Rltb.
  destruct (Rlt_dec epsilon 0.005) as [Hlt | Hge]; [reflexivity |].
  unfold mask_fill. rewrite !map_map. apply map_ext; intros fi.
  unfold divide.
  destruct (Req_dec_T fi 0) as [-> | Hfi].
  - replace (PI * 0 * epsilon) with 0 by ring.
    rewrite sin_0, !Reqb_true by reflexivity. reflexivity.
  - rewrite Reqb_false; [reflexivity |].
    assert (HPI := PI_RGT_0).
    apply Rmult_integral_contrapositive_currified; [| lra].
    apply Rmult_integral_contrapositive_currified; lra.
Qed.

End DiracPulse.

(** ** The area under the pulse *)

Section UnitArea.
Import Numpy Python DiracFourierGui.

(** A function that is constant strictly inside [a, b] is a step function
    on [a, b], whatever it does at the two end points. *)
Lemma adapted_const_inside (f : R -> R) (a b c : R) :
  a <= b ->
  (forall x, a < x < b -> f x = c) ->
  adapted_couple f a b [a; b] [c].
Proof.
  intros Hab Hc. unfold adapted_couple.
  split; [| split; [| split; [| split]]].
  - intros i Hi. cbn in Hi. replace i with 0%nat by lia. cbn. exact Hab.
  - cbn. now rewrite Rmin_left.
  - cbn. now rewrite Rmax_right.
  - reflexivity.
  - intros i Hi. cbn in Hi. replace i with 0%nat by lia.
    intros x Hx. cbn in *. now apply Hc.
Qed.

Lemma integrable_const_inside (f : R -> R) (a b c : R) :
  a <= b ->
  (forall x, a < x < b -> f x = c) ->
  Riemann_integrable f a b.
Proof.
  intros Hab Hc eps.
  exists (mkStepFun
            (existT _ [a; b] (existT _ [c] (adapted_const_inside f a b c Hab Hc)))).
  exists (mkStepFun (StepFun_P4 a b 0)).
  split.
  - intros t _. cbn. unfold fct_cte.
    rewrite Rminus_diag, Rabs_R0. lra.
  - rewrite StepFun_P18, Rmult_0_l, Rabs_R0. apply cond_pos.
Qed.

Lemma RiemannInt_const_inside (f : R -> R) (a b c : R)
  (pr : Riemann_integrable f a b) :
  a <= b ->
  (forall x, a < x < b -> f x = c) ->
  RiemannInt pr = c * (b - a).
Proof.
  intros Hab Hc.
  rewrite (RiemannInt_P18 pr (RiemannInt_P14 a b c) Hab).
  - apply RiemannInt_P15.
  - intros x Hx. unfold fct_cte. now apply Hc.
Qed.

(** C5.  For every positive width the pulse is Riemann integrable over
    every window [-a, a] that contains its support, and the integral is 1:
    the area [1/epsilon * epsilon] does not depend on the width. *)
Theorem dirac_rect_unit_area (epsilon a : R) :
  0 < epsilon ->
  epsilon / 2 <= a ->
  (exists pr : Riemann_integrable (dirac_rect_sample epsilon) (- a) a,
      RiemannInt pr = 1) /\
  (forall pr : Riemann_integrable (dirac_rect_sample epsilon) (- a) a,
      RiemannInt pr = 1) /\
  dirac_rect_sample epsilon 0 * epsilon = 1.
Proof.
  intros Heps Ha.
  set (f := dirac_rect_sample epsilon).
  assert (Hleft : forall x, - a < x < - (epsilon / 2) -> f x = 0).
  { intros x Hx. apply dirac_rect_sample_outside; [exact Heps |].
    rewrite Rabs_left by lra. lra. }
  assert (Hmid : forall x, - (epsilon / 2) < x < epsilon / 2 -> f x = 1 / epsilon).
  { intros x Hx. apply dirac_rect_sample_inside; [exact Heps |].
    apply Rabs_le. lra. }
  assert (Hright : forall x, epsilon / 2 < x < a -> f x = 0).
  { intros x Hx. apply dirac_rect_sample_outside; [exact Heps |].
    rewrite Rabs_right by lra. lra. }
  assert (H1 : - a <= - (epsilon / 2)) by lra.
  assert (H2 : - (epsilon / 2) <= epsilon / 2) by lra.
  set (pl := integrable_const_inside f _ _ 0 H1 Hleft).
  set (pm := integrable_const_inside f _ _ (1 / epsilon) H2 Hmid).
  set (pr := integrable_const_inside f _ _ 0 Ha Hright).
  set (plm := RiemannInt_P24 pl pm).
  set (pall := RiemannInt_P24 plm pr).
  assert (Hall : RiemannInt pall = 1).
  { rewrite <- (RiemannInt_P26 plm pr pall), <- (RiemannInt_P26 pl pm plm).
    rewrite (RiemannInt_const_inside f _ _ 0 pl H1 Hleft).
    rewrite (RiemannInt_const_inside f _ _ (1 / epsilon) pm H2 Hmid).
    rewrite (RiemannInt_const_inside f _ _ 0 pr Ha Hright).
    field. lra. }
  split; [exists pall; exact Hall |]. split.
  - intros pr'. rewrite (RiemannInt_P5 pr' pall). exact Hall.
  - unfold f. rewrite dirac_rect_sample_inside; [field; lra | exact Heps |].
    rewrite Rabs_R0. lra.
Qed.

Lemma dirac_rect_unit_area_witness :
  (exists pr : Riemann_integrable (dirac_rect_sample init_width) (- 5) 5,
      RiemannInt pr = 1) /\
  (forall pr : Riemann_integrable (dirac_rect_sample init_width) (- 5) 5,
      RiemannInt pr = 1) /\
  dirac_rect_sample init_width 0 * init_width = 1.
Proof.
  apply (dirac_rect_unit_area init_width 5); unfold init_width; lra.
Defined.

End UnitArea.

(** ** [linspace] and [logspace] *)

Section Spacing.
Import Numpy.

Lemma arange0_S n : arange0 (S n) = arange0 n ++ [INR n].
Proof. unfold arange0. rewrite seq_S, map_app. reflexivity. Qed.

Lemma linspace_S start stop n :
  (0 < n)%nat ->
  linspace start stop (S n) =
  map (fun i => i * ((stop - start) / INR n) + start) (arange0 n) ++ [stop].
Proof.
  intros Hn. unfold linspace.
  replace (S n - 1)%nat with n by lia.
  destruct (Nat.ltb_spec 1 (S n)) as [_ | H]; [| lia].
  rewrite arange0_S, map_app. cbn [map].
  rewrite removelast_last. reflexivity.
Qed.

Lemma length_linspace start stop n : length (linspace start stop n) = n.
Proof.
  destruct n as [| [| n]]; [reflexivity | reflexivity |].
  rewrite linspace_S by lia.
  rewrite length_app, length_map, length_arange0. cbn. lia.
Qed.

Lemma nth_linspace start stop n i :
  (0 < n)%nat -> (i <= n)%nat ->
  nth i (linspace start stop (S n)) 0 = start + INR i * ((stop - start) / INR n).
Proof.
  intros Hn Hi. rewrite linspace_S by exact Hn.
  assert (Hn0 : INR n <> 0) by (apply not_0_INR; lia).
  destruct (Nat.eq_dec i n) as [-> | Hne].
  - rewrite app_nth2; rewrite length_map, length_arange0; [| lia].
    rewrite Nat.sub_diag. cbn [nth]. field. exact Hn0.
  - rewrite app_nth1 by (rewrite length_map, length_arange0; lia).
    rewrite (nth_map_lt _ _ _ _ 0) by (rewrite length_arange0; lia).
    rewrite nth_arange0 by lia. ring.
Qed.

Lemma length_logspace start stop n : length (logspace start stop n) = n.
Proof. unfold logspace. now rewrite length_map, length_linspace. Qed.

Lemma nth_logspace start stop n i :
  (0 < n)%nat -> (i <= n)%nat ->
  nth i (logspace start stop (S n)) 0 =
  power10 (start + INR i * ((stop - start) / INR n)).
Proof.
  intros Hn Hi. unfold logspace.
  rewrite (nth_map_lt _ _ _ _ 0) by (rewrite length_linspace; lia).
  rewrite nth_linspace by assumption. reflexivity.
Qed.

Lemma ln_10_pos : 0 < ln 10.
Proof. rewrite <- ln_1. apply ln_increasing; lra. Qed.

Lemma power10_log10 x : 0 < x -> power10 (log10 x) = x.
Proof.
  intros Hx. unfold power10, log10, Rlog, Rpower.
  replace (ln x / ln 10 * ln 10) with (ln x)
    by (field; apply Rgt_not_eq, ln_10_pos).
  now apply exp_ln.
Qed.

Lemma log10_power10 y : log10 (power10 y) = y.
Proof.
  unfold power10, log10, Rlog, Rpower. rewrite ln_exp.
  field. apply Rgt_not_eq, ln_10_pos.
Qed.

Lemma power10_lt x y : x < y -> power10 x < power10 y.
Proof.
  intros H. unfold power10, Rpower. apply exp_increasing.
  apply Rmult_lt_compat_r; [apply ln_10_pos | exact H].
Qed.

Lemma power10_le x y : x <= y -> power10 x <= power10 y.
Proof.
  intros [H | ->]; [left; now apply power10_lt | right; reflexivity].
Qed.

Lemma log10_lt x y : 0 < x -> x < y -> log10 x < log10 y.
Proof.
  intros Hx Hxy. unfold log10, Rlog.
  apply Rmult_lt_compat_r; [apply Rinv_0_lt_compat, ln_10_pos |].
  now apply ln_increasing.
Qed.

(** The frames [logspace(log10(hi), log10(lo), 100)] for [0 < lo < hi]. *)
Lemma logspace_descent lo hi :
  0 < lo -> lo < hi ->
  let frames := logspace (log10 hi) (log10 lo) 100 in
  length frames = 100%nat /\
  (forall i, (i < 100)%nat ->
     log10 (nth i frames 0) = log10 hi + INR i * ((log10 lo - log10 hi) / 99)) /\
  nth 0 frames 0 = hi /\
  nth 99 frames 0 = lo /\
  (forall i j, (i < j < 100)%nat -> nth j frames 0 < nth i frames 0) /\
  Forall (fun v => lo <= v <= hi) frames.
Proof.
  intros Hlo Hlt frames.
  assert (Hlog : log10 lo < log10 hi) by now apply log10_lt.
  assert (H99 : INR 99 = 99) by (rewrite INR_IZR_INZ; reflexivity).
  assert (Hnth : forall i, (i < 100)%nat ->
            nth i frames 0 = power10 (log10 hi + INR i * ((log10 lo - log10 hi) / 99))).
  { intros i Hi. unfold frames.
    rewrite (nth_logspace _ _ 99 i) by lia. now rewrite H99. }
  assert (Hlast : nth 99 frames 0 = lo).
  { rewrite Hnth by lia. rewrite H99.
    replace (log10 hi + 99 * ((log10 lo - log10 hi) / 99)) with (log10 lo) by field.
    now apply power10_log10. }
  assert (Hfirst : nth 0 frames 0 = hi).
  { rewrite Hnth by lia. cbn [INR]. rewrite Rmult_0_l, Rplus_0_r.
    apply power10_log10; lra. }
  assert (Hdec : forall i j, (i < j < 100)%nat -> nth j frames 0 < nth i frames 0).
  { intros i j [Hij Hj]. rewrite !Hnth by lia. apply power10_lt.
    assert (INR i < INR j) by now apply lt_INR. nra. }
  split; [apply length_logspace |].
  repeat split; try assumption.
  - intros i Hi. rewrite Hnth by exact Hi. apply log10_power10.
  - apply Forall_forall. intros v Hv.
    destruct (In_nth _ _ 0 Hv) as [i [Hi <-]].
    unfold frames in Hi. rewrite length_logspace in Hi.
    split.
    + destruct (Nat.eq_dec i 99) as [-> | Hne]; [rewrite Hlast; lra |].
      rewrite <- Hlast. left. apply Hdec. lia.
    + destruct (Nat.eq_dec i 0) as [-> | Hne]; [rewrite Hfirst; lra |].
      rewrite <- Hfirst. left. apply Hdec. lia.
Qed.

End Spacing.

(** ** The play button *)

Section PlayButton.
Import Numpy Python DiracFourierGui.

Lemma min_width_pos : 0 < min_width.
Proof. unfold min_width; lra. Qed.

Lemma min_lt_max_width : min_width < max_width.
Proof. unfold min_width, max_width; lra. Qed.

(** C8.  A click while idle with the slider strictly above the minimum
    stores exactly 100 frames whose base-10 logarithms fall linearly from
    that of the slider value to that of the minimum width; the first frame
    is the slider value, the last is 0.001, the frames decrease, and each
    lies within the slider bounds. *)
Theorem play_clicked_frames_from_current (g : gui) :
  animation_active g = false ->
  min_width < slider_val g ->
  slider_val g <= max_width ->
  exists frames,
    animation_frames (play_clicked g) = Some frames /\
    length frames = 100%nat /\
    (forall i, (i < 100)%nat ->
       log10 (nth i frames 0) =
       log10 (slider_val g) + INR i * ((log10 min_width - log10 (slider_val g)) / 99)) /\
    nth 0 frames 0 = slider_val g /\
    nth 99 frames 0 = min_width /\
    (forall i j, (i < j < 100)%nat -> nth j frames 0 < nth i frames 0) /\
    Forall (fun v => min_width <= v <= max_width) frames.
Proof.
  intros Hidle Hlo Hhi.
  destruct (logspace_descent min_width (slider_val g) min_width_pos Hlo)
    as (Hlen & Hlin & Hfirst & Hlast & Hdec & Hin).
  exists (logspace (log10 (slider_val g)) (log10 min_width) 100).
  split.
  - unfold play_clicked. rewrite Hidle. cbn [animation_frames].
    rewrite Rleb_false by lra. reflexivity.
  - repeat (split; [assumption |]).
    eapply Forall_impl; [| exact Hin]. cbv beta. intros v Hv. lra.
Qed.

Lemma play_clicked_frames_from_current_witness :
  exists frames,
    animation_frames (play_clicked initial_gui) = Some frames /\
    length frames = 100%nat /\
    (forall i, (i < 100)%nat ->
       log10 (nth i frames 0) =
       log10 (slider_val initial_gui)
       + INR i * ((log10 min_width - log10 (slider_val initial_gui)) / 99)) /\
    nth 0 frames 0 = slider_val initial_gui /\
    nth 99 frames 0 = min_width /\
    (forall i j, (i < j < 100)%nat -> nth j frames 0 < nth i frames 0) /\
    Forall (fun v => min_width <= v <= max_width) frames.
Proof.
  apply (play_clicked_frames_from_current initial_gui).
  - reflexivity.
  - unfold min_width, initial_gui, init_width; cbn; lra.
  - unfold max_width, initial_gui, init_width; cbn; lra.
Defined.

(** C10.  A click while idle with the slider at (or below) the minimum
    width does not start from the slider value: the frames are the 100
    log-spaced values from the maximum width 2.0 down to 0.001. *)
Theorem play_clicked_frames_from_max (g : gui) :
  animation_active g = false ->
  slider_val g <= min_width ->
  animation_frames (play_clicked g) =
    Some (logspace (log10 max_width) (log10 min_width) 100) /\
  exists frames,
    animation_frames (play_clicked g) = Some frames /\
    length frames = 100%nat /\
    (forall i, (i < 100)%nat ->
       log10 (nth i frames 0) =
       log10 max_width + INR i * ((log10 min_width - log10 max_width) / 99)) /\
    nth 0 frames 0 = max_width /\
    nth 0 frames 0 <> slider_val g /\
    nth 99 frames 0 = min_width /\
    (forall i j, (i < j < 100)%nat -> nth j frames 0 < nth i frames 0).
Proof.
  intros Hidle Hmin.
  assert (Hfr : animation_frames (play_clicked g) =
                Some (logspace (log10 max_width) (log10 min_width) 100)).
  { unfold play_clicked. rewrite Hidle. cbn [animation_frames].
    rewrite Rleb_true by exact Hmin. reflexivity. }
  split; [exact Hfr |].
  destruct (logspace_descent min_width max_width min_width_pos min_lt_max_width)
    as (Hlen & Hlin & Hfirst & Hlast & Hdec & _).
  eexists. split; [exact Hfr |].
  repeat (split; [assumption |]).
  split; [| split; assumption].
  rewrite Hfirst. generalize min_lt_max_width. lra.
Qed.

Lemma play_clicked_frames_from_max_witness :
  animation_frames (play_clicked gui_at_minimum) =
    Some (logspace (log10 max_width) (log10 min_width) 100) /\
  exists frames,
    animation_frames (play_clicked gui_at_minimum) = Some frames /\
    length frames = 100%nat /\
    (forall i, (i < 100)%nat ->
       log10 (nth i frames 0) =
       log10 max_width + INR i * ((log10 min_width - log10 max_width) / 99)) /\
    nth 0 frames 0 = max_width /\
    nth 0 frames 0 <> slider_val gui_at_minimum /\
    nth 99 frames 0 = min_width /\
    (forall i j, (i < j < 100)%nat -> nth j frames 0 < nth i frames 0).
Proof.
  apply (play_clicked_frames_from_max gui_at_minimum).
  - reflexivity.
  - cbn. lra.
Defined.

End PlayButton.

(** ** The top-level handlers *)

Section Handlers.
Import Python.
Import DiracFourierGui (dialog_then_reraise).


(** Where tkinter is not installed the handler dies in its first statement:
    no window, no dialog, and the ModuleNotFoundError leaves the script
    instead of the exception of [main()]. *)
Example handler_without_tkinter :
  let env := {| import_tkinter := Some (Exn true "No module named 'tkinter'");
                Tk := None; withdraw := None; showerror := None |} in
  DiracFourierGui.script env (Raised (Exn true "boom")) =
    ([], Raised (Exn true "No module named 'tkinter'")) /\
  ~ dialog_then_reraise env (Exn true "boom").
Proof.
  split; [reflexivity |].
  intros [_ H]. cbn in H. discriminate H.
Qed.





End Handlers.

(** ** Harmonics of the Fourier series *)

Section Harmonics.
Import Numpy FourierLimit.

Lemma length_arange a b : length (arange a b) = Z.to_nat (b - a).
Proof. unfold arange. now rewrite length_map, length_seq. Qed.

Lemma nth_arange a b i :
  (i < Z.to_nat (b - a))%nat -> nth i (arange a b) 0%Z = (a + Z.of_nat i)%Z.
Proof.
  intros H. unfold arange.
  rewrite (nth_map_lt _ _ _ _ 0%nat) by now rewrite length_seq.
  now rewrite seq_nth.
Qed.

Lemma In_arange a b n : In n (arange a b) <-> (a <= n < b)%Z.
Proof.
  unfold arange. rewrite in_map_iff. split.
  - intros (i & <- & Hi). apply in_seq in Hi. lia.
  - intros H. exists (Z.to_nat (n - a)). split; [lia |].
    apply in_seq. lia.
Qed.

(** A harmonic within [floor(f_max * T)] has its frequency within [f_max]. *)
Lemma harmonic_frequency_bound (T f_max : R) (n : Z) :
  0 < T ->
  (- Zfloor (f_max * T) <= n <= Zfloor (f_max * T))%Z ->
  Rabs (IZR n / T) <= f_max.
Proof.
  intros HT Hn.
  destruct (Zfloor_bound (f_max * T)) as [Hfl _].
  assert (Hup : IZR n <= IZR (Zfloor (f_max * T))) by (apply IZR_le; lia).
  assert (Hdn : - IZR (Zfloor (f_max * T)) <= IZR n)
    by (rewrite <- opp_IZR; apply IZR_le; lia).
  unfold Rdiv. rewrite Rabs_mult, (Rabs_pos_eq (/ T)).
  2:{ left. now apply Rinv_0_lt_compat. }
  apply (Rmult_le_reg_r T); [exact HT |].
  rewrite Rmult_assoc, Rinv_l, Rmult_1_r by lra.
  apply Rabs_le. lra.
Qed.


(** C3.  For a positive period the function returns, and the harmonics it
    integrates are exactly [-n_max, ..., n_max] with
    [n_max = floor(f_max * T)], in increasing order and once each; [fn]
    holds [n / T], [Cn] the coefficient of the same [n], and every returned
    frequency is at most [f_max] in absolute value. *)
Theorem compute_fourier_series_harmonics (T f_max : R) :
  0 < T ->
  let n_max := Zfloor (f_max * T) in
  let n_vals := arange (- n_max) (n_max + 1) in
  let t_int := linspace_open 0 T N in
  let x_int := where_ (fun t => Rltb t T1) 1 0 t_int in
  exists fn Cn,
    compute_fourier_series T f_max = Some (fn, Cn) /\
    (forall n, In n n_vals <-> (- n_max <= n <= n_max)%Z) /\
    length n_vals = Z.to_nat (2 * n_max + 1) /\
    (forall i, (i < length n_vals)%nat -> nth i n_vals 0%Z = (- n_max + Z.of_nat i)%Z) /\
    fn = map (fun n => IZR n / T) n_vals /\
    Cn = map (Cn_val T t_int x_int) n_vals /\
    Forall (fun v => Rabs v <= f_max) fn.
Proof.
  intros HT n_max n_vals t_int x_int.
  exists (map (fun n => IZR n / T) n_vals), (map (Cn_val T t_int x_int) n_vals).
  split.
  { unfold compute_fourier_series. rewrite Reqb_false by lra. reflexivity. }
  split.
  { intros n. unfold n_vals. rewrite In_arange. lia. }
  split.
  { unfold n_vals. rewrite length_arange. f_equal. lia. }
  split.
  { intros i Hi. unfold n_vals in *. rewrite length_arange in Hi.
    now apply nth_arange. }
  do 2 (split; [reflexivity |]).
  apply Forall_forall. intros v Hv.
  apply in_map_iff in Hv. destruct Hv as (n & <- & Hn).
  unfold n_vals in Hn. apply In_arange in Hn.
  apply harmonic_frequency_bound; [exact HT | fold n_max; lia].
Qed.

Lemma compute_fourier_series_harmonics_witness :
  let n_max := Zfloor (10.0 * 4.0) in
  let n_vals := arange (- n_max) (n_max + 1) in
  let t_int := linspace_open 0 4.0 N in
  let x_int := where_ (fun t => Rltb t T1) 1 0 t_int in
  exists fn Cn,
    compute_fourier_series 4.0 10.0 = Some (fn, Cn) /\
    (forall n, In n n_vals <-> (- n_max <= n <= n_max)%Z) /\
    length n_vals = Z.to_nat (2 * n_max + 1) /\
    (forall i, (i < length n_vals)%nat -> nth i n_vals 0%Z = (- n_max + Z.of_nat i)%Z) /\
    fn = map (fun n => IZR n / 4.0) n_vals /\
    Cn = map (Cn_val 4.0 t_int x_int) n_vals /\
    Forall (fun v => Rabs v <= 10.0) fn.
Proof. apply (compute_fourier_series_harmonics 4.0 10.0). lra. Defined.

End Harmonics.

(** ** The closed-form transform of the pulse *)

Section ContinuousTransform.
Import Numpy FourierLimit.

Variables (A B : Type) (p : A -> bool) (g : A -> option B) (h : A -> B).
Hypothesis g_defined : forall x, p x = true -> g x = Some (h x).

(** The quotient is evaluated on the selected samples only, where it is
    defined. *)
Lemma mapM_select (f : list A) :
  mapM g (select (map p f) f) = Some (map h (select (map p f) f)).
Proof.
  induction f as [| x f IH]; [reflexivity |].
  cbn [map select]. destruct (p x) eqn:Hp; [| exact IH].
  cbn [mapM map]. now rewrite (g_defined x Hp), IH.
Qed.

(** Scattering the quotients back and filling the complement. *)
Lemma scatter_fill (z v : B) (f : list A) :
  mask_assign_scalar
    (mask_assign (map (fun _ => z) f) (map p f) (map h (select (map p f) f)))
    (map negb (map p f)) v =
  map (fun x => if p x then h x else v) f.
Proof.
  unfold mask_assign_scalar.
  induction f as [| x f IH]; [reflexivity |].
  cbn [map select mask_assign]. destruct (p x) eqn:Hp.
  - cbn [map mask_assign zip_with negb]. now rewrite IH.
  - cbn [map mask_assign zip_with negb]. now rewrite IH.
Qed.

End ContinuousTransform.

Section ContinuousTransformRect.
Import Numpy FourierLimit.

(** [1j * 2 * np.pi * f] is [2 pi f j]. *)
Lemma denominator_value (fi : R) :
  Cmul (Cmul (Cmul Ci (RtoC 2)) (RtoC PI)) (RtoC fi) = (0, 2 * PI * fi).
Proof. unfold Cmul, Ci, RtoC; cbn [fst snd]. f_equal; ring. Qed.

Lemma denominator_nonzero (fi : R) :
  fi <> 0 ->
  Ceqb (Cmul (Cmul (Cmul Ci (RtoC 2)) (RtoC PI)) (RtoC fi)) (RtoC 0) = false.
Proof.
  intros Hfi. rewrite denominator_value. unfold Ceqb, RtoC; cbn [fst snd].
  rewrite (Reqb_false (2 * PI * fi)).
  - apply Bool.andb_false_r.
  - assert (HPI := PI_RGT_0).
    apply Rmult_integral_contrapositive_currified; [lra | exact Hfi].
Qed.

Lemma continuous_transform_rect_map (f : list R) :
  continuous_transform_rect f =
  Some (map (fun fi =>
               if Req_dec_T fi 0 then RtoC 1
               else Cdiv (Csub (RtoC 1) (Cexp (phase_arg fi T1)))
                         (Cmul (Cmul (Cmul Ci (RtoC 2)) (RtoC PI)) (RtoC fi)))
            f).
Proof.
  unfold continuous_transform_rect.
  set (p := fun fi : R => negb (Reqb fi 0)).
  set (q := fun fi : R =>
              Cdiv (Csub (RtoC 1) (Cexp (phase_arg fi T1)))
                   (Cmul (Cmul (Cmul Ci (RtoC 2)) (RtoC PI)) (RtoC fi))).
  rewrite (mapM_select R C p _ q).
  - rewrite scatter_fill. f_equal. apply map_ext. intros fi.
    unfold p, Reqb, T1. destruct (Req_dec_T fi 0); cbn [negb]; [f_equal; lra | reflexivity].
  - intros fi Hp. unfold Cdivide. rewrite denominator_nonzero; [reflexivity |].
    unfold p, Reqb in Hp. destruct (Req_dec_T fi 0); [discriminate | assumption].
Qed.

(** C4.  The function returns on every input, with one output sample per
    input sample, and no quotient meets a zero denominator: a sample with
    [f <> 0] has the nonzero denominator [j 2 pi f] and holds
    [(1 - exp(-j 2 pi f T1)) / (j 2 pi f)]; a sample with [f = 0] is left
    out of the quotient and holds [T1 = 1]. *)
Theorem continuous_transform_rect_total (f : list R) :
  exists Xf,
    continuous_transform_rect f = Some Xf /\
    length Xf = length f /\
    select (map (fun fi => negb (Reqb fi 0)) f) f = filter (fun fi => negb (Reqb fi 0)) f /\
    forall i, (i < length f)%nat ->
      let fi := nth i f 0 in
      let den := Cmul (Cmul (Cmul Ci (RtoC 2)) (RtoC PI)) (RtoC fi) in
      (fi = 0 -> nth i Xf (RtoC 0) = RtoC T1) /\
      (fi <> 0 ->
         den <> RtoC 0 /\
         Cdivide (Csub (RtoC 1) (Cexp (phase_arg fi T1))) den = Some (nth i Xf (RtoC 0)) /\
         nth i Xf (RtoC 0) = Cdiv (Csub (RtoC 1) (Cexp (phase_arg fi T1))) den).
Proof.
  eexists. split; [apply continuous_transform_rect_map |].
  split; [apply length_map |].
  split.
  { induction f as [| x f IH]; [reflexivity |].
    cbn [map select filter]. destruct (negb (Reqb x 0)); now rewrite IH. }
  intros i Hi fi den.
  rewrite (nth_map_lt _ _ _ _ 0) by exact Hi. fold fi.
  destruct (Req_dec_T fi 0) as [H0 | Hne].
  - split; [intros _; unfold T1; f_equal; lra | intros Hc; contradiction].
  - split; [intros Hc; contradiction |]. intros _.
    assert (Hden : Ceqb den (RtoC 0) = false) by now apply denominator_nonzero.
    split; [| split].
    + intros Heq. rewrite Heq in Hden. unfold Ceqb in Hden.
      rewrite !Reqb_true in Hden by reflexivity. discriminate.
    + unfold Cdivide. now rewrite Hden.
    + reflexivity.
Qed.

(** The quotient in real and imaginary parts: [sin(2 pi f) / (2 pi f)] and
    [(cos(2 pi f) - 1) / (2 pi f)]. *)
Lemma transform_quotient_value (fi : R) :
  fi <> 0 ->
  Cdiv (Csub (RtoC 1) (Cexp (phase_arg fi T1)))
       (Cmul (Cmul (Cmul Ci (RtoC 2)) (RtoC PI)) (RtoC fi)) =
  (sin (2 * PI * fi) / (2 * PI * fi), (cos (2 * PI * fi) - 1) / (2 * PI * fi)).
Proof.
  intros Hfi. rewrite denominator_value.
  assert (HPI := PI_RGT_0).
  assert (Hd : 2 * PI * fi <> 0)
    by (apply Rmult_integral_contrapositive_currified; [lra | exact Hfi]).
  assert (Harg : phase_arg fi T1 = (0, - (2 * PI * fi))).
  { unfold phase_arg, Cmul, Copp, Ci, RtoC, T1; cbn [fst snd]. f_equal; lra. }
  rewrite Harg. unfold Cdiv, Csub, Cexp, RtoC; cbn [fst snd].
  rewrite exp_0, cos_neg, sin_neg. f_equal; field; split; lra.
Qed.

End ContinuousTransformRect.

(** ** Phases *)

Section Phases.
Import Numpy FourierLimit.





End Phases.

(** ** Complex modulus *)

Section ComplexNorm.
Import Numpy.

Lemma Cabs_nonneg (z : C) : 0 <= Cabs z.
Proof. apply sqrt_pos. Qed.

Lemma Cabs_sqr (z : C) : Cabs z * Cabs z = fst z * fst z + snd z * snd z.
Proof. unfold Cabs. apply sqrt_sqrt. nra. Qed.

Lemma Cabs_le_of_sqr (z : C) (r : R) :
  0 <= r -> fst z * fst z + snd z * snd z <= r * r -> Cabs z <= r.
Proof.
  intros Hr H. unfold Cabs.
  rewrite <- (sqrt_square r) by exact Hr.
  apply sqrt_le_1_alt. exact H.
Qed.

Lemma Cabs_eq_of_sqr (z : C) (r : R) :
  0 <= r -> fst z * fst z + snd z * snd z = r * r -> Cabs z = r.
Proof.
  intros Hr H. unfold Cabs. rewrite H. now apply sqrt_square.
Qed.

Lemma Cabs_triangle (a b : C) : Cabs (Cadd a b) <= Cabs a + Cabs b.
Proof.
  assert (Ha := Cabs_nonneg a). assert (Hb := Cabs_nonneg b).
  assert (Ha2 := Cabs_sqr a). assert (Hb2 := Cabs_sqr b).
  apply Cabs_le_of_sqr; [lra |].
  unfold Cadd; cbn [fst snd].
  destruct a as [a1 a2], b as [b1 b2]; cbn [fst snd] in *.
  set (p := Cabs (a1, a2)) in *. set (q := Cabs (b1, b2)) in *.
  assert (Hpq : 0 <= p * q) by (apply Rmult_le_pos; assumption).
  assert (Hcs : a1 * b1 + a2 * b2 <= p * q).
  { destruct (Rle_lt_dec (a1 * b1 + a2 * b2) 0) as [Hneg | Hpos]; [lra |].
    apply Rsqr_incr_0_var; [| lra]. unfold Rsqr.
    replace (p * q * (p * q)) with ((p * p) * (q * q)) by ring.
    rewrite Ha2, Hb2.
    replace ((a1 * a1 + a2 * a2) * (b1 * b1 + b2 * b2))
      with ((a1 * b1 + a2 * b2) * (a1 * b1 + a2 * b2)
            + (a1 * b2 - a2 * b1) * (a1 * b2 - a2 * b1)) by ring.
    pose proof (Rle_0_sqr (a1 * b2 - a2 * b1)) as Hsq. unfold Rsqr in Hsq. lra. }
  nra.
Qed.

Lemma Cabs_opp (a : C) : Cabs (Copp a) = Cabs a.
Proof. unfold Cabs, Copp; cbn [fst snd]. f_equal. ring. Qed.

Lemma Csub_as_add (a b : C) : Csub a b = Cadd a (Copp b).
Proof. unfold Csub, Cadd, Copp; cbn [fst snd]. f_equal; ring. Qed.

Lemma Cabs_sub_sym (a b : C) : Cabs (Csub a b) = Cabs (Csub b a).
Proof. unfold Cabs, Csub; cbn [fst snd]. f_equal. ring. Qed.

(** The triangle inequality through an intermediate point. *)
Lemma Cabs_sub_triangle (a b c : C) :
  Cabs (Csub a c) <= Cabs (Csub a b) + Cabs (Csub b c).
Proof.
  replace (Csub a c) with (Cadd (Csub a b) (Csub b c)).
  - apply Cabs_triangle.
  - unfold Csub, Cadd; cbn [fst snd]. f_equal; ring.
Qed.

Lemma Cabs_reverse_triangle (a b : C) :
  Rabs (Cabs a - Cabs b) <= Cabs (Csub a b).
Proof.
  assert (H1 : Cabs a <= Cabs (Csub a b) + Cabs b).
  { replace a with (Cadd (Csub a b) b) at 1.
    - apply Cabs_triangle.
    - destruct a, b; unfold Csub, Cadd; cbn [fst snd]. f_equal; ring. }
  assert (H2 : Cabs b <= Cabs (Csub b a) + Cabs a).
  { replace b with (Cadd (Csub b a) a) at 1.
    - apply Cabs_triangle.
    - destruct a, b; unfold Csub, Cadd; cbn [fst snd]. f_equal; ring. }
  rewrite (Cabs_sub_sym b a) in H2.
  apply Rabs_le. lra.
Qed.

Lemma Cabs_scale (r : R) (z : C) : Cabs (Cmul (RtoC r) z) = Rabs r * Cabs z.
Proof.
  assert (Hz := Cabs_nonneg z). assert (Hz2 := Cabs_sqr z).
  apply Cabs_eq_of_sqr.
  - apply Rmult_le_pos; [apply Rabs_pos | exact Hz].
  - unfold Cmul, RtoC; cbn [fst snd].
    replace (Rabs r * Cabs z * (Rabs r * Cabs z))
      with ((Rabs r * Rabs r) * (Cabs z * Cabs z)) by ring.
    rewrite Hz2. replace (Rabs r * Rabs r) with (r * r).
    + ring.
    + rewrite <- Rabs_mult. symmetry. apply Rabs_pos_eq. nra.
Qed.

Lemma Cabs_div_real (z : C) (r : R) : 0 < r -> Cabs (Cdiv_real z r) = Cabs z / r.
Proof.
  intros Hr. assert (Hz := Cabs_nonneg z). assert (Hz2 := Cabs_sqr z).
  apply Cabs_eq_of_sqr.
  - apply Rmult_le_pos; [exact Hz | left; now apply Rinv_0_lt_compat].
  - unfold Cdiv_real; cbn [fst snd].
    replace (Cabs z / r * (Cabs z / r)) with ((Cabs z * Cabs z) / (r * r))
      by (field; lra).
    rewrite Hz2. field. lra.
Qed.

Lemma Cabs_RtoC (r : R) : Cabs (RtoC r) = Rabs r.
Proof.
  apply Cabs_eq_of_sqr; [apply Rabs_pos |].
  unfold RtoC; cbn [fst snd]. rewrite <- Rabs_mult.
  rewrite Rabs_pos_eq by nra. ring.
Qed.

Lemma Cabs_unit (x : R) : Cabs (cos x, - sin x) = 1.
Proof.
  apply Cabs_eq_of_sqr; [lra |]. cbn [fst snd].
  assert (H := sin2_cos2 x). unfold Rsqr in H. lra.
Qed.

End ComplexNorm.

(** ** Elementary bounds on sine and cosine *)

Section TrigBounds.

Lemma sin_abs_le (x : R) : 0 <= x -> - x <= sin x <= x.
Proof.
  intros [Hx | <-]; [| rewrite sin_0; lra].
  split; [| left; now apply sin_lt_x].
  destruct (Rle_lt_dec 1 x) as [H1 | H1].
  - destruct (SIN_bound x). lra.
  - assert (HPI := PI2_1).
    assert (0 <= sin x) by (apply sin_ge_0; lra). lra.
Qed.

Lemma sin_sqr_le (x : R) : sin x * sin x <= x * x.
Proof.
  destruct (Rle_lt_dec 0 x) as [Hx | Hx].
  - destruct (sin_abs_le x Hx). nra.
  - destruct (sin_abs_le (- x)) as [H1 H2]; [lra |].
    rewrite sin_neg in H1, H2. nra.
Qed.

Lemma one_minus_cos_le (u : R) : 0 <= 1 - cos u <= u * u / 2.
Proof.
  replace u with (2 * (u / 2)) at 1 2 by field.
  rewrite cos_2a_sin.
  assert (H := sin_sqr_le (u / 2)).
  assert (H0 : 0 <= sin (u / 2) * sin (u / 2)) by apply Rle_0_sqr.
  lra.
Qed.

Lemma sin_cubic_lower (u : R) : 0 <= u -> u - u * u * u / 6 <= sin u.
Proof.
  intros Hu. destruct (Rle_lt_dec u 4) as [H4 | H4].
  - destruct (pre_sin_bound u 0 Hu H4) as [Hlow _].
    unfold sin_approx, sin_term in Hlow. cbn in Hlow. lra.
  - destruct (SIN_bound u).
    assert (16 < u * u) by nra.
    assert (u * (u * u) > u * 16) by (apply Rmult_gt_compat_l; lra).
    lra.
Qed.

(** The gap between the chord and the tangent of the unit circle. *)
Lemma chord_tangent_gap (u : R) :
  0 <= u -> Rabs (u * cos u - sin u) <= u * u * u / 2.
Proof.
  intros Hu.
  destruct (one_minus_cos_le u) as [Hc0 Hc].
  destruct (sin_abs_le u Hu) as [_ Hs].
  assert (Hl := sin_cubic_lower u Hu).
  assert (H3 : 0 <= u * u * u) by (apply Rmult_le_pos; [apply Rle_0_sqr | exact Hu]).
  assert (Hm : u * (1 - cos u) <= u * (u * u / 2))
    by (apply Rmult_le_compat_l; assumption).
  assert (Hm0 : 0 <= u * (1 - cos u)) by (apply Rmult_le_pos; assumption).
  apply Rabs_le. split; lra.
Qed.

Lemma chord_tangent_gap_abs (u : R) :
  Rabs (u * cos u - sin u) <= Rabs u * (u * u) / 2.
Proof.
  destruct (Rle_lt_dec 0 u) as [Hu | Hu].
  - rewrite (Rabs_pos_eq u) by exact Hu.
    replace (u * (u * u) / 2) with (u * u * u / 2) by field.
    now apply chord_tangent_gap.
  - assert (H := chord_tangent_gap (- u)). rewrite cos_neg, sin_neg in H.
    replace (- u * cos u - - sin u) with (- (u * cos u - sin u)) in H by ring.
    rewrite Rabs_Ropp in H. rewrite (Rabs_left u) by exact Hu.
    replace (- u * (u * u) / 2) with (- u * - u * - u / 2) by field.
    apply H. lra.
Qed.

End TrigBounds.

(** ** The trapezoid rule on the integration grid *)

Section TrapezoidSum.
Import Numpy.

Lemma Cadd_comm (a b : C) : Cadd a b = Cadd b a.
Proof. unfold Cadd. f_equal; ring. Qed.

Lemma Cadd_assoc (a b c : C) : Cadd a (Cadd b c) = Cadd (Cadd a b) c.
Proof. unfold Cadd; cbn [fst snd]. f_equal; ring. Qed.

Lemma Cadd_0_l (a : C) : Cadd (RtoC 0) a = a.
Proof. destruct a. unfold Cadd, RtoC; cbn [fst snd]. f_equal; ring. Qed.

Lemma Csum_snoc (l : list C) (a : C) : Csum (l ++ [a]) = Cadd (Csum l) a.
Proof.
  induction l as [| x l IH]; cbn.
  - now rewrite Cadd_0_l, Cadd_comm, Cadd_0_l.
  - unfold Csum in IH. rewrite IH. apply Cadd_assoc.
Qed.

Lemma zip_with_map {A B D E : Type} (f : B -> D -> E) (g : A -> B) (k : A -> D)
      (l : list A) :
  zip_with f (map g l) (map k l) = map (fun i => f (g i) (k i)) l.
Proof. induction l as [| x l IH]; cbn; [reflexivity | now rewrite IH]. Qed.

Lemma trapz_cons (y0 y1 : C) (ys : list C) (x0 x1 : R) (xs : list R) :
  trapz (y0 :: y1 :: ys) (x0 :: x1 :: xs) =
  Cadd (Cdiv_real (Cmul (RtoC (x1 - x0)) (Cadd y1 y0)) 2.0)
       (trapz (y1 :: ys) (x1 :: xs)).
Proof. reflexivity. Qed.

(** [np.trapz] over arrays given by index is the sum of the trapezoids. *)
Lemma trapz_map_seq (y : nat -> C) (x : nat -> R) (m k : nat) :
  trapz (map y (seq k (S m))) (map x (seq k (S m))) =
  Csum (map (trapezoid y x) (seq k m)).
Proof.
  revert k. induction m as [| m IH]; intros k; [reflexivity |].
  change (seq k (S (S m))) with (k :: S k :: seq (S (S k)) m).
  cbn [map]. rewrite trapz_cons.
  change (map y (seq (S (S k)) m)) with (tl (map y (seq (S k) (S m)))).
  specialize (IH (S k)). cbn [seq map] in IH. cbn [tl seq map].
  rewrite IH. reflexivity.
Qed.

End TrapezoidSum.

(** ** Error of the trapezoid rule on a truncated integrand

    The integrand is [e t] for [t < 1] and zero from 1 on, sampled with step
    [h]; [I t] is the exact integral of [e] over [0, t].  One trapezoid
    under the pulse is off by at most [h * delta], the trapezoid that
    straddles the edge of the pulse by at most [3 h / 2]. *)

Section TrapezoidError.
Import Numpy.

Variables (h delta : R) (e I : R -> C).
Hypothesis h_pos : 0 < h.
Hypothesis delta_nonneg : 0 <= delta.
Hypothesis e_unit : forall t, Cabs (e t) = 1.
Hypothesis I_0 : I 0 = RtoC 0.
Hypothesis I_step : forall a,
  Cabs (Csub (Cdiv_real (Cmul (RtoC h) (Cadd (e (a + h)) (e a))) 2.0)
             (Csub (I (a + h)) (I a))) <= h * delta.
Hypothesis I_lipschitz : forall a b, a <= b -> Cabs (Csub (I b) (I a)) <= b - a.

Let t (i : nat) : R := INR i * h.
Let y (i : nat) : C := Cmul (RtoC (if Rltb (t i) 1 then 1 else 0)) (e (t i)).
Let S (m : nat) : C := Csum (map (trapezoid y t) (seq 0 m)).

Lemma grid_succ i : t (Datatypes.S i) = t i + h.
Proof. unfold t. rewrite S_INR. ring. Qed.

Lemma grid_nonneg i : 0 <= t i.
Proof. unfold t. apply Rmult_le_pos; [apply pos_INR | lra]. Qed.

Lemma trapezoid_full i :
  t (Datatypes.S i) < 1 ->
  trapezoid y t i = Cdiv_real (Cmul (RtoC h) (Cadd (e (t i + h)) (e (t i)))) 2.0.
Proof.
  intros Hlt. assert (Hs := grid_succ i).
  unfold trapezoid, y. rewrite (Rltb_true (t (Datatypes.S i)) 1) by exact Hlt.
  rewrite (Rltb_true (t i) 1) by lra. rewrite Hs.
  destruct (e (t i + h)) as [c1 s1], (e (t i)) as [c0 s0].
  unfold Cdiv_real, Cmul, Cadd, RtoC; cbn [fst snd]. f_equal; lra.
Qed.

Lemma trapezoid_empty i : 1 <= t i -> trapezoid y t i = RtoC 0.
Proof.
  intros Hge. assert (Hs := grid_succ i).
  unfold trapezoid, y. rewrite (Rltb_false (t (Datatypes.S i)) 1) by lra.
  rewrite (Rltb_false (t i) 1) by lra.
  destruct (e (t (Datatypes.S i))) as [c1 s1], (e (t i)) as [c0 s0].
  unfold Cdiv_real, Cmul, Cadd, RtoC; cbn [fst snd]. f_equal; lra.
Qed.

Lemma trapezoid_edge i :
  t i < 1 -> 1 <= t (Datatypes.S i) ->
  trapezoid y t i = Cmul (RtoC (h / 2)) (e (t i)).
Proof.
  intros Hlt Hge. assert (Hs := grid_succ i).
  unfold trapezoid, y. rewrite (Rltb_false (t (Datatypes.S i)) 1) by lra.
  rewrite (Rltb_true (t i) 1) by exact Hlt. rewrite Hs.
  destruct (e (t i + h)) as [c1 s1], (e (t i)) as [c0 s0].
  unfold Cdiv_real, Cmul, Cadd, RtoC; cbn [fst snd]. f_equal; lra.
Qed.

Lemma partial_sum_succ m : S (Datatypes.S m) = Cadd (S m) (trapezoid y t m).
Proof. unfold S. rewrite seq_S, map_app. cbn [map]. apply Csum_snoc. Qed.

Lemma split_error (A p J0 J1 : C) :
  Cabs (Csub (Cadd A p) J1) <= Cabs (Csub A J0) + Cabs (Csub p (Csub J1 J0)).
Proof.
  replace (Csub (Cadd A p) J1) with (Cadd (Csub A J0) (Csub p (Csub J1 J0))).
  - apply Cabs_triangle.
  - unfold Csub, Cadd; cbn [fst snd]. f_equal; ring.
Qed.

Lemma Cabs_zero : Cabs (RtoC 0) = 0.
Proof. rewrite Cabs_RtoC. apply Rabs_R0. Qed.

Lemma Csub_diag (a : C) : Csub a a = RtoC 0.
Proof. unfold Csub, RtoC. f_equal; ring. Qed.

(** The partial sums follow the integral up to the end of the pulse. *)
Lemma partial_sum_error m :
  Cabs (Csub (S m) (I (Rmin (t m) 1))) <=
  if Rlt_dec (t m) 1 then t m * delta else delta + 3 * h / 2.
Proof.
  induction m as [| m IH].
  - assert (Ht0 : t 0%nat = 0) by (unfold t; cbn [INR]; ring).
    rewrite Ht0, Rmin_left by lra. rewrite I_0.
    change (S 0%nat) with (RtoC 0). rewrite Csub_diag, Cabs_zero.
    destruct (Rlt_dec 0 1); lra.
  - rewrite partial_sum_succ.
    assert (Hs := grid_succ m). assert (Hpos := grid_nonneg m).
    eapply Rle_trans; [apply (split_error _ _ (I (Rmin (t m) 1))) |].
    set (E := Cabs (Csub (S m) (I (Rmin (t m) 1)))) in *.
    destruct (Rlt_dec (t (Datatypes.S m)) 1) as [Hlt1 | Hge1].
    + (* the trapezoid lies under the pulse *)
      destruct (Rlt_dec (t m) 1) as [_ | Habs]; [| lra].
      rewrite trapezoid_full by exact Hlt1.
      rewrite !Rmin_left by lra. rewrite Hs at 1.
      assert (Hst := I_step (t m)). rewrite Hs. lra.
    + destruct (Rlt_dec (t m) 1) as [Hlt0 | Hge0].
      * (* the trapezoid straddles the edge of the pulse *)
        rewrite trapezoid_edge by lra.
        rewrite Rmin_right, Rmin_left by lra.
        assert (Hedge : Cabs (Csub (Cmul (RtoC (h / 2)) (e (t m))) (Csub (I 1) (I (t m))))
                        <= h / 2 + (1 - t m)).
        { rewrite Csub_as_add.
          eapply Rle_trans; [apply Cabs_triangle |].
          rewrite Cabs_opp, Cabs_scale, e_unit, Rabs_pos_eq by lra.
          assert (Hl := I_lipschitz (t m) 1). lra. }
        assert (t m * delta <= delta) by nra.
        lra.
      * (* the trapezoid lies past the pulse *)
        rewrite trapezoid_empty by lra.
        rewrite !Rmin_right by lra.
        rewrite Csub_diag, Csub_diag, Cabs_zero. lra.
Qed.

(** The whole sum against the integral over the pulse, when the period
    [(m + 1) h] is at least the pulse width. *)
Lemma trapezoid_sum_error m :
  1 <= INR (Datatypes.S m) * h ->
  Cabs (Csub (S m) (I 1)) <= delta + 3 * h / 2.
Proof.
  intros HT. rewrite S_INR in HT.
  assert (Herr := partial_sum_error m). assert (Hpos := grid_nonneg m).
  assert (Htm : t m = INR m * h) by reflexivity.
  destruct (Rlt_dec (t m) 1) as [Hlt | Hge].
  - rewrite Rmin_left in Herr by lra.
    eapply Rle_trans; [apply (Cabs_sub_triangle _ (I (t m))) |].
    rewrite (Cabs_sub_sym (I (t m))).
    assert (Hl := I_lipschitz (t m) 1).
    assert (t m * delta <= delta) by nra.
    lra.
  - rewrite Rmin_right in Herr by lra. exact Herr.
Qed.

End TrapezoidError.

(** ** The harmonic and its integral *)

Section Harmonic.
Import Numpy FourierLimit.

Variable alpha : R.

Lemma harmonic_unit (t : R) : Cabs (harmonic alpha t) = 1.
Proof. apply Cabs_unit. Qed.

Lemma harmonic_integral_0 : harmonic_integral alpha 0 = RtoC 0.
Proof.
  unfold harmonic_integral, Reqb. destruct (Req_dec_T alpha 0) as [_ | Ha].
  - reflexivity.
  - rewrite Rmult_0_r, sin_0, cos_0. unfold RtoC. f_equal; field; exact Ha.
Qed.

Lemma harmonic_lipschitz (a b : R) :
  a <= b ->
  Cabs (Csub (harmonic_integral alpha b) (harmonic_integral alpha a)) <= b - a.
Proof.
  intros Hab. unfold harmonic_integral, Reqb.
  destruct (Req_dec_T alpha 0) as [Ha | Ha].
  - apply Cabs_le_of_sqr; [lra |]. unfold Csub; cbn [fst snd]. nra.
  - apply Cabs_le_of_sqr; [lra |]. unfold Csub; cbn [fst snd].
    set (A := alpha * a). set (B := alpha * b).
    assert (HA := sin2_cos2 A). assert (HB := sin2_cos2 B). unfold Rsqr in HA, HB.
    destruct (one_minus_cos_le (B - A)) as [_ Hc]. rewrite cos_minus in Hc.
    assert (Haa : 0 < alpha * alpha) by nra.
    replace ((sin B / alpha - sin A / alpha) * (sin B / alpha - sin A / alpha)
             + ((cos B - 1) / alpha - (cos A - 1) / alpha)
               * ((cos B - 1) / alpha - (cos A - 1) / alpha))
      with (2 * (1 - (cos B * cos A + sin B * sin A)) / (alpha * alpha)).
    2:{ field_simplify_eq; [| exact Ha]. nra. }
    apply (Rmult_le_reg_r (alpha * alpha)); [exact Haa |].
    replace (2 * (1 - (cos B * cos A + sin B * sin A)) / (alpha * alpha) * (alpha * alpha))
      with (2 * (1 - (cos B * cos A + sin B * sin A))) by (field; exact Ha).
    replace ((b - a) * (b - a) * (alpha * alpha)) with ((B - A) * (B - A))
      by (unfold A, B; ring).
    lra.
Qed.

End Harmonic.

Section HarmonicStep.
Import Numpy FourierLimit.

Variables alpha h : R.
Hypothesis h_pos : 0 < h.

(** What one trapezoid under the pulse misses of the integral of the
    harmonic: [h * |cos u - sin u / u|] with [u = alpha h / 2]. *)
Lemma harmonic_step (a : R) :
  Cabs (Csub (Cdiv_real (Cmul (RtoC h)
                           (Cadd (harmonic alpha (a + h)) (harmonic alpha a))) 2.0)
             (Csub (harmonic_integral alpha (a + h)) (harmonic_integral alpha a)))
  <= h * (alpha * h / 2 * (alpha * h / 2) / 2).
Proof.
  unfold harmonic, harmonic_integral, Reqb.
  destruct (Req_dec_T alpha 0) as [-> | Ha].
  - rewrite !Rmult_0_l, cos_0, sin_0.
    apply Cabs_le_of_sqr; [nra |].
    unfold Csub, Cdiv_real, Cmul, Cadd, RtoC; cbn [fst snd]. nra.
  - set (u := alpha * h / 2). set (m := alpha * a + u).
    replace (alpha * (a + h)) with (m + u) by (unfold m, u; field).
    replace (alpha * a) with (m - u) by (unfold m, u; field).
    rewrite cos_plus, sin_plus, cos_minus, sin_minus.
    set (g := h * cos u - 2 * sin u / alpha).
    set (r := h * (u * u / 2)).
    assert (Hr : 0 <= r).
    { unfold r. apply Rmult_le_pos; [lra |].
      assert (0 <= u * u) by apply Rle_0_sqr. lra. }
    assert (Hg : Rabs g <= r).
    { assert (Hga : g * alpha = 2 * (u * cos u - sin u))
        by (unfold g, u; field; exact Ha).
      assert (HK := chord_tangent_gap_abs u).
      assert (Hu : Rabs u = Rabs alpha * (h / 2)).
      { unfold u. replace (alpha * h / 2) with (alpha * (h / 2)) by field.
        rewrite Rabs_mult, (Rabs_pos_eq (h / 2)) by lra. reflexivity. }
      assert (Hapos : 0 < Rabs alpha) by now apply Rabs_pos_lt.
      apply (Rmult_le_reg_r (Rabs alpha)); [exact Hapos |].
      rewrite <- Rabs_mult, Hga, Rabs_mult, (Rabs_pos_eq 2) by lra.
      rewrite Hu in HK. unfold r. lra. }
    apply Cabs_le_of_sqr; [exact Hr |].
    unfold Csub, Cdiv_real, Cmul, Cadd, RtoC; cbn [fst snd].
    replace 2.0 with 2 by lra.
    match goal with
    | |- ?x * ?x + ?y * ?y <= _ =>
        replace x with (cos m * g) by (unfold g; field; exact Ha);
        replace y with (- sin m * g) by (unfold g; field; exact Ha)
    end.
    assert (Hm := sin2_cos2 m). unfold Rsqr in Hm.
    replace (cos m * g * (cos m * g) + - sin m * g * (- sin m * g))
      with (g * g * (sin m * sin m + cos m * cos m)) by ring.
    rewrite Hm, Rmult_1_r.
    assert (Hg' : - r <= g <= r)
      by (unfold Rabs in Hg; destruct (Rcase_abs g); lra).
    nra.
Qed.

End HarmonicStep.

(** ** The computed coefficients against the closed-form transform *)

Section CoefficientError.
Import Numpy FourierLimit.

Lemma T1_one : T1 = 1.
Proof. unfold T1. lra. Qed.

Lemma Cexp_phase_arg (v t : R) : Cexp (phase_arg v t) = harmonic (2 * PI * v) t.
Proof.
  assert (Harg : phase_arg v t = (0, - (2 * PI * v * t))).
  { unfold phase_arg, Cmul, Copp, Ci, RtoC; cbn [fst snd]. f_equal; ring. }
  rewrite Harg. unfold Cexp, harmonic; cbn [fst snd].
  rewrite exp_0, cos_neg, sin_neg. f_equal; ring.
Qed.

Lemma linspace_open_grid (T : R) (n : nat) :
  linspace_open 0 T n = map (fun i => INR i * (T / INR n)) (seq 0 n).
Proof.
  unfold linspace_open, arange0. rewrite map_map. apply map_ext.
  intros i. rewrite Rminus_0_r. ring.
Qed.

(** The coefficient of harmonic [n] is [1/T] times the sum of the
    trapezoids of the sampled integrand. *)
Lemma Cn_val_sum (T : R) (n : Z) (m : nat) :
  let t_int := linspace_open 0 T (S m) in
  let x_int := where_ (fun t => Rltb t T1) 1 0 t_int in
  let h := T / INR (S m) in
  Cn_val T t_int x_int n =
  Cmul (RtoC (1.0 / T))
       (Csum (map (trapezoid (integrand (2 * PI * (IZR n / T)) h)
                             (fun i => INR i * h))
                  (seq 0 m))).
Proof.
  intros t_int x_int h. unfold Cn_val. f_equal.
  unfold x_int, t_int, where_. rewrite linspace_open_grid. fold h.
  rewrite !map_map, zip_with_map.
  rewrite <- (trapz_map_seq (integrand (2 * PI * (IZR n / T)) h)).
  f_equal. apply map_ext. intros i.
  unfold integrand. now rewrite Cexp_phase_arg.
Qed.

Lemma X_at_integral (f : R) : X_at f = harmonic_integral (2 * PI * f) 1.
Proof.
  assert (HPI := PI_RGT_0).
  unfold X_at. rewrite continuous_transform_rect_map. cbn [map].
  unfold harmonic_integral.
  destruct (Req_dec_T f 0) as [-> | Hf].
  - rewrite Reqb_true by ring. reflexivity.
  - rewrite Reqb_false
      by (apply Rmult_integral_contrapositive_currified; [lra | exact Hf]).
    rewrite transform_quotient_value by exact Hf.
    now rewrite Rmult_1_r.
Qed.

Lemma Cmul_sub_distr (c a b : C) :
  Csub (Cmul c a) (Cmul c b) = Cmul c (Csub a b).
Proof. unfold Csub, Cmul; cbn [fst snd]. f_equal; ring. Qed.

(** The trapezoid sum of harmonic [alpha] against its integral over the
    pulse, for a grid of [m + 1] samples over a period of at least 1. *)
Lemma harmonic_sum_error (alpha h : R) (m : nat) :
  0 < h -> 1 <= INR (S m) * h ->
  Cabs (Csub (Csum (map (trapezoid (integrand alpha h) (fun i => INR i * h)) (seq 0 m)))
             (harmonic_integral alpha 1))
  <= alpha * h / 2 * (alpha * h / 2) / 2 + 3 * h / 2.
Proof.
  intros Hh HT.
  assert (Hd : 0 <= alpha * h / 2 * (alpha * h / 2) / 2).
  { assert (0 <= alpha * h / 2 * (alpha * h / 2)) by apply Rle_0_sqr. lra. }
  assert (Hext : map (trapezoid (integrand alpha h) (fun i => INR i * h)) (seq 0 m) =
                 map (trapezoid
                        (fun i => Cmul (RtoC (if Rltb (INR i * h) 1 then 1 else 0))
                                       (harmonic alpha (INR i * h)))
                        (fun i => INR i * h)) (seq 0 m)).
  { apply map_ext. intros i. unfold trapezoid, integrand. now rewrite T1_one. }
  rewrite Hext.
  apply (trapezoid_sum_error h _ (harmonic alpha) (harmonic_integral alpha)
           Hh Hd (harmonic_unit alpha) (harmonic_integral_0 alpha)
           (harmonic_step alpha h Hh) (harmonic_lipschitz alpha) m HT).
Qed.

(** The distance between [|Cn|] and the overlay [|X(n/T)| / T]. *)
Lemma Cn_val_deviation (T : R) (n : Z) (m : nat) :
  1 <= T ->
  let t_int := linspace_open 0 T (S m) in
  let x_int := where_ (fun t => Rltb t T1) 1 0 t_int in
  deviation T (Cn_val T t_int x_int n) (IZR n / T)
  <= 3 / (2 * INR (S m))
     + T * (PI * (IZR n / T) * (PI * (IZR n / T))) / (2 * (INR (S m) * INR (S m))).
Proof.
  intros HT t_int x_int.
  assert (HN : 0 < INR (S m)) by (apply lt_0_INR; lia).
  set (Nr := INR (S m)) in *.
  set (h := T / Nr).
  set (alpha := 2 * PI * (IZR n / T)).
  assert (Hh : 0 < h) by (unfold h; apply Rdiv_lt_0_compat; lra).
  assert (Hper : 1 <= INR (S m) * h).
  { fold Nr. unfold h. replace (Nr * (T / Nr)) with T by (field; lra). exact HT. }
  assert (Hsum := harmonic_sum_error alpha h m Hh Hper).
  assert (Hinv : 0 < 1.0 / T) by (apply Rdiv_lt_0_compat; lra).
  unfold deviation. rewrite X_at_integral. fold alpha.
  unfold x_int, t_int. rewrite (Cn_val_sum T n m). cbv zeta. fold Nr h alpha.
  replace 1.0 with 1 in * by lra.
  replace (Cabs (harmonic_integral alpha 1) / T)
    with (Cabs (Cmul (RtoC (1 / T)) (harmonic_integral alpha 1))).
  2:{ rewrite Cabs_scale, Rabs_pos_eq by lra. field. lra. }
  eapply Rle_trans; [apply Cabs_reverse_triangle |].
  rewrite Cmul_sub_distr, Cabs_scale, Rabs_pos_eq by lra.
  apply Rle_trans
    with (1 / T * (alpha * h / 2 * (alpha * h / 2) / 2 + 3 * h / 2)).
  - apply Rmult_le_compat_l; [lra | exact Hsum].
  - right. unfold alpha, h. field. split; lra.
Qed.

End CoefficientError.

Section MagnitudeOverlay.
Import Numpy FourierLimit.

Lemma N_succ : N = S (Z.to_nat 10000).
Proof. unfold N. lia. Qed.

Lemma INR_N : INR N = 10001.
Proof. unfold N. rewrite INR_IZR_INZ, Z2Nat.id by lia. reflexivity. Qed.

(** C6, amended.  For every period of at least the pulse width, each
    coefficient magnitude returned by [compute_fourier_series] lies within
    the discretisation error of the 10001-sample trapezoid rule of the
    scaled transform magnitude [|X(fn)| / T] at its frequency: at most
    [3 / (2 * 10001) + T (pi fn)^2 / (2 * 10001^2)], whatever the number of
    coefficients. *)
Theorem fourier_series_magnitude_error (T f_max : R) :
  1 <= T ->
  exists fn Cn,
    compute_fourier_series T f_max = Some (fn, Cn) /\
    length fn = length Cn /\
    forall k, (k < length Cn)%nat ->
      deviation T (nth k Cn (RtoC 0)) (nth k fn 0)
      <= 3 / (2 * 10001)
         + T * (PI * nth k fn 0 * (PI * nth k fn 0)) / (2 * (10001 * 10001)).
Proof.
  intros HT. unfold compute_fourier_series. rewrite Reqb_false by lra.
  do 2 eexists. split; [reflexivity |].
  split; [now rewrite !length_map |].
  intros k Hk. rewrite length_map in Hk.
  rewrite (nth_map_lt _ _ _ _ 0%Z), (nth_map_lt _ _ _ _ 0%Z) by exact Hk.
  rewrite <- INR_N. rewrite N_succ.
  apply Cn_val_deviation. exact HT.
Qed.

Lemma fourier_series_magnitude_error_witness :
  exists fn Cn,
    compute_fourier_series T0 10.0 = Some (fn, Cn) /\
    length fn = length Cn /\
    forall k, (k < length Cn)%nat ->
      deviation T0 (nth k Cn (RtoC 0)) (nth k fn 0)
      <= 3 / (2 * 10001)
         + T0 * (PI * nth k fn 0 * (PI * nth k fn 0)) / (2 * (10001 * 10001)).
Proof. apply (fourier_series_magnitude_error T0 10.0). unfold T0. lra. Defined.

(** X2.  On the slider range of the period, every plotted coefficient magnitude
    is within 1/3000 of the scaled transform magnitude at its frequency. *)
Theorem update_plots_overlay_gap (T : R) :
  1 <= T <= 20 ->
  exists p,
    update_plots T = Some p /\
    length (fn p) = length (Cn_mag p) /\
    forall k, (k < length (Cn_mag p))%nat ->
      Rabs (nth k (Cn_mag p) 0 - Cabs (X_at (nth k (fn p) 0)) / T) <= 1 / 3000.
Proof.
  intros [HT1 HT20]. unfold update_plots, compute_fourier_series.
  rewrite Reqb_false by lra. rewrite continuous_transform_rect_map.
  eexists. split; [reflexivity |]. cbn [fn Cn_mag].
  split; [now rewrite !length_map |].
  intros k Hk. rewrite !length_map in Hk.
  set (n_vals := arange (- Zfloor (10.0 * T)) (Zfloor (10.0 * T) + 1)) in *.
  rewrite (nth_map_lt _ _ _ _ (RtoC 0)) by now rewrite length_map.
  rewrite (nth_map_lt _ _ _ _ 0%Z), (nth_map_lt _ _ _ _ 0%Z) by exact Hk.
  set (n := nth k n_vals 0%Z).
  assert (Hn : In n n_vals) by (apply nth_In; exact Hk).
  unfold n_vals in Hn. apply In_arange in Hn.
  assert (Hf : Rabs (IZR n / T) <= 10.0)
    by (apply harmonic_frequency_bound; [lra | lia]).
  assert (Hdev := Cn_val_deviation T n (Z.to_nat 10000) HT1). cbv zeta in Hdev.
  rewrite <- N_succ, INR_N in Hdev. unfold deviation in Hdev.
  eapply Rle_trans; [exact Hdev |].
  set (v := IZR n / T) in *.
  assert (HPI := PI_RGT_0). assert (HPI4 := PI_4).
  assert (Hv2 : v * v <= 100).
  { assert (- 10 <= v <= 10) by (unfold Rabs in Hf; destruct (Rcase_abs v); lra). nra. }
  assert (Hp2 : PI * PI <= 16) by nra.
  assert (Hpv : PI * v * (PI * v) <= 1600).
  { replace (PI * v * (PI * v)) with (PI * PI * (v * v)) by ring.
    assert (0 <= v * v) by apply Rle_0_sqr.
    assert (0 <= PI * PI) by apply Rle_0_sqr. nra. }
  assert (Hq : 0 <= PI * v * (PI * v)) by apply Rle_0_sqr.
  assert (Hnum : T * (PI * v * (PI * v)) <= 32000) by nra.
  unfold Rdiv. lra.
Qed.

Lemma update_plots_overlay_gap_witness :
  exists p,
    update_plots T0 = Some p /\
    length (fn p) = length (Cn_mag p) /\
    forall k, (k < length (Cn_mag p))%nat ->
      Rabs (nth k (Cn_mag p) 0 - Cabs (X_at (nth k (fn p) 0)) / T0) <= 1 / 3000.
Proof. apply (update_plots_overlay_gap T0). unfold T0. lra. Defined.

(** With the whole grid under the pulse, the constant harmonic sums to the
    length of the grid. *)
Lemma dc_partial_sum (h : R) (k : nat) :
  INR k * h < 1 ->
  Csum (map (trapezoid (integrand 0 h) (fun i => INR i * h)) (seq 0 k))
  = (INR k * h, 0).
Proof.
  induction k as [| k IH]; intros Hk.
  - cbn. unfold RtoC. f_equal. ring.
  - rewrite S_INR in Hk.
    assert (Hk' : INR k * h < 1).
    { assert (0 <= INR k) by apply pos_INR.
      destruct (Rle_lt_dec 0 h); nra. }
    rewrite seq_S, map_app. cbn [map Nat.add]. rewrite Csum_snoc, IH by exact Hk'.
    unfold trapezoid, integrand, harmonic. rewrite T1_one.
    rewrite (Rltb_true (INR (S k) * h)) by (rewrite S_INR; lra).
    rewrite (Rltb_true (INR k * h)) by exact Hk'.
    rewrite !Rmult_0_l, cos_0, sin_0, !S_INR.
    unfold Cadd, Cdiv_real, Cmul, RtoC; cbn [fst snd]. f_equal; lra.
Qed.

(** At the period [T = 1] the constant component misses one grid step. *)
Lemma dc_coefficient_at_one :
  let t_int := linspace_open 0 1 N in
  let x_int := where_ (fun t => Rltb t T1) 1 0 t_int in
  Cn_val 1 t_int x_int 0 = (10000 / 10001, 0).
Proof.
  intros t_int x_int. unfold x_int, t_int. rewrite N_succ.
  rewrite (Cn_val_sum 1 0 (Z.to_nat 10000)). cbv zeta.
  rewrite <- N_succ, INR_N.
  assert (Hm : INR (Z.to_nat 10000) = 10000).
  { rewrite INR_IZR_INZ, Z2Nat.id by lia. reflexivity. }
  replace (2 * PI * (0 / 1)) with 0 by field.
  rewrite dc_partial_sum by (rewrite Hm; lra).
  rewrite Hm. unfold Cmul, RtoC; cbn [fst snd]. f_equal; lra.
Qed.

Lemma dc_deviation_at_one :
  let t_int := linspace_open 0 1 N in
  let x_int := where_ (fun t => Rltb t T1) 1 0 t_int in
  deviation 1 (Cn_val 1 t_int x_int 0) (0 / 1) = 1 / 10001.
Proof.
  intros t_int x_int. unfold x_int, t_int.
  rewrite dc_coefficient_at_one. unfold deviation.
  rewrite X_at_integral. replace (2 * PI * (0 / 1)) with 0 by field.
  unfold harmonic_integral. rewrite Reqb_true by reflexivity.
  change (1, 0) with (RtoC 1). change (10000 / 10001, 0) with (RtoC (10000 / 10001)).
  rewrite !Cabs_RtoC, (Rabs_pos_eq 1), (Rabs_pos_eq (10000 / 10001)) by lra.
  replace (10000 / 10001 - 1 / 1) with (- (1 / 10001)) by field.
  rewrite Rabs_Ropp. apply Rabs_pos_eq. lra.
Qed.

(** C6 as stated fails.  At [T = 1] the constant coefficient is
    [10000/10001] whatever [f_max] is, while the scaled transform is 1 there:
    the distance [1/10001] is not reduced by computing more coefficients. *)
Lemma magnitudes_do_not_converge :
  deviation 1
    (Cn_val 1 (linspace_open 0 1 N)
       (where_ (fun t => Rltb t T1) 1 0 (linspace_open 0 1 N)) 0)
    (0 / 1) = 1 / 10001 /\
  ~ magnitudes_converge 1.
Proof.
  split; [apply dc_deviation_at_one |].
  intros Hconv.
  destruct (Hconv (1 / 10001)) as [M HM]; [lra |].
  set (n_vals := arange (- Z.of_nat M) (Z.of_nat M + 1)).
  assert (Hlen : length n_vals = (2 * M + 1)%nat)
    by (unfold n_vals; rewrite length_arange; lia).
  assert (Hmid : nth M n_vals 0%Z = 0%Z)
    by (unfold n_vals; rewrite nth_arange; lia).
  assert (Hser : compute_fourier_series 1 (INR M) =
                 Some (map (fun n => IZR n / 1) n_vals,
                       map (Cn_val 1 (linspace_open 0 1 N)
                              (where_ (fun t => Rltb t T1) 1 0 (linspace_open 0 1 N)))
                           n_vals)).
  { unfold compute_fourier_series. rewrite Reqb_false by lra.
    rewrite Rmult_1_r, INR_IZR_INZ, ZfloorZ. reflexivity. }
  specialize (HM _ _ _ Hser).
  rewrite length_map, Hlen in HM.
  specialize (HM ltac:(lia) M ltac:(lia)).
  rewrite (nth_map_lt _ _ _ _ 0%Z), (nth_map_lt _ _ _ _ 0%Z) in HM
    by (rewrite Hlen; lia).
  rewrite Hmid in HM.
  pose proof dc_deviation_at_one as Hdev. cbv zeta in Hdev.
  rewrite Hdev in HM. lra.
Qed.

End MagnitudeOverlay.

(** ** The animation run *)

Section AnimationRun.
Import Numpy Python DiracFourierGui.

Variable fr : list R.

(** The animation is under way and has shown [c] frames. *)
Let running (c : nat) (g : gui) : Prop :=
  animation_active g = true /\
  (exists tm, animation_timer g = Some tm) /\
  animation_frames g = Some fr /\
  current_frame g = c /\
  button_label g = "Stop Animation"%string.

Lemma tick_running (c : nat) (g : gui) :
  running c g -> (S c < length fr)%nat ->
  running (S c) (timer_tick g) /\ slider_val (timer_tick g) = nth c fr 0.
Proof.
  intros (Hact & (tm & Htm) & Hfr & Hc & Hlab) Hlt.
  unfold timer_tick, step_animation. rewrite Htm, Hact, Hfr, Hc. cbn [negb orb].
  destruct (Nat.leb_spec (length fr) c) as [Hle | _]; [lia |].
  cbn [current_frame].
  destruct (Nat.leb_spec (length fr) (S c)) as [Hle | _]; [lia |].
  unfold running. cbn. repeat split; try assumption. now exists tm.
Qed.

Lemma tick_last (c : nat) (g : gui) :
  running c g -> S c = length fr ->
  let g' := timer_tick g in
  slider_val g' = nth c fr 0 /\
  animation_active g' = false /\
  animation_timer g' = None /\
  button_label g' = "Play Animation"%string.
Proof.
  intros (Hact & (tm & Htm) & Hfr & Hc & Hlab) Hlast g'. unfold g'.
  unfold timer_tick, step_animation. rewrite Htm, Hact, Hfr, Hc. cbn [negb orb].
  destruct (Nat.leb_spec (length fr) c) as [Hle | _]; [lia |].
  cbn [current_frame].
  destruct (Nat.leb_spec (length fr) (S c)) as [_ | Hlt]; [| lia].
  cbn. repeat split.
Qed.

Lemma ticks_running (j c : nat) (g : gui) :
  running c g -> (c + j < length fr)%nat ->
  running (c + j) (ticks j g) /\
  ((0 < j)%nat -> slider_val (ticks j g) = nth (c + j - 1) fr 0).
Proof.
  revert c g. induction j as [| j IH]; intros c g Hrun Hlt.
  - rewrite Nat.add_0_r. cbn. split; [exact Hrun | lia].
  - destruct (tick_running c g Hrun) as [Hrun' Hval]; [lia |].
    cbn [ticks]. destruct (IH (S c) (timer_tick g) Hrun') as [Hr Hs]; [lia |].
    replace (c + S j)%nat with (S c + j)%nat by lia.
    split; [exact Hr |]. intros _.
    destruct j as [| j].
    + cbn [ticks]. rewrite Hval. f_equal. lia.
    + apply Hs. lia.
Qed.

Lemma ticks_complete (g : gui) :
  running 0 g -> (0 < length fr)%nat ->
  let g' := ticks (length fr) g in
  slider_val g' = nth (length fr - 1) fr 0 /\
  animation_active g' = false /\
  animation_timer g' = None /\
  button_label g' = "Play Animation"%string.
Proof.
  intros Hrun Hlen.
  destruct (length fr) as [| n] eqn:Hn; [lia |].
  replace (S n) with (n + 1)%nat by lia.
  assert (Hsplit : forall a b s, ticks (a + b) s = ticks b (ticks a s)).
  { induction a as [| a IHa]; intros b s; [reflexivity | apply IHa]. }
  rewrite Hsplit. cbn [ticks].
  destruct (ticks_running n 0 g Hrun) as [Hr _]; [lia |].
  cbn [Nat.add] in Hr.
  replace (n + 1 - 1)%nat with n by lia.
  apply (tick_last n); [exact Hr | lia].
Qed.

End AnimationRun.

Section Animation.
Import Numpy Python DiracFourierGui.

(** X1.  After a click from idle with the slider above the minimum, tick [j]
    (1 to 100) sets the slider to frame [j - 1]; the animation is active up
    to tick 99 and after tick 100 it has stopped itself with the slider at
    the minimum width. *)
Theorem animation_runs_100_ticks (g : gui) :
  animation_active g = false ->
  min_width < slider_val g ->
  exists frames,
    animation_frames (play_clicked g) = Some frames /\
    (forall j, (0 < j <= 100)%nat ->
       slider_val (ticks j (play_clicked g)) = nth (j - 1) frames 0) /\
    (forall j, (j < 100)%nat -> animation_active (ticks j (play_clicked g)) = true) /\
    slider_val (ticks 100 (play_clicked g)) = min_width /\
    animation_active (ticks 100 (play_clicked g)) = false /\
    animation_timer (ticks 100 (play_clicked g)) = None /\
    button_label (ticks 100 (play_clicked g)) = "Play Animation"%string.
Proof.
  intros Hidle Hlo.
  destruct (logspace_descent min_width (slider_val g) min_width_pos Hlo)
    as (Hlen & _ & _ & Hlast & _ & _).
  set (frames := logspace (log10 (slider_val g)) (log10 min_width) 100) in *.
  assert (Hfr : animation_frames (play_clicked g) = Some frames).
  { unfold play_clicked. rewrite Hidle. cbn [animation_frames].
    rewrite Rleb_false by lra. reflexivity. }
  assert (Hrun : animation_active (play_clicked g) = true /\
                 (exists tm, animation_timer (play_clicked g) = Some tm) /\
                 animation_frames (play_clicked g) = Some frames /\
                 current_frame (play_clicked g) = 0%nat /\
                 button_label (play_clicked g) = "Stop Animation"%string).
  { split; [unfold play_clicked; rewrite Hidle; reflexivity |].
    split; [unfold play_clicked; rewrite Hidle; cbn; eexists; reflexivity |].
    split; [exact Hfr |].
    split; unfold play_clicked; rewrite Hidle; reflexivity. }
  destruct (ticks_complete frames (play_clicked g) Hrun) as (Hv & Ha & Ht & Hl);
    [rewrite Hlen; lia |].
  rewrite Hlen in Hv, Ha, Ht, Hl.
  exists frames. split; [exact Hfr |].
  split.
  { intros j [Hj0 Hj].
    destruct (Nat.eq_dec j 100) as [-> | Hne]; [exact Hv |].
    destruct (ticks_running frames j 0 (play_clicked g) Hrun) as [_ Hs];
      [rewrite Hlen; lia |].
    now apply Hs. }
  split.
  { intros j Hj.
    destruct (ticks_running frames j 0 (play_clicked g) Hrun) as [Hr _];
      [rewrite Hlen; lia |].
    apply Hr. }
  split; [rewrite Hv; exact Hlast |].
  repeat split; assumption.
Qed.

Lemma animation_runs_100_ticks_witness :
  exists frames,
    animation_frames (play_clicked initial_gui) = Some frames /\
    (forall j, (0 < j <= 100)%nat ->
       slider_val (ticks j (play_clicked initial_gui)) = nth (j - 1) frames 0) /\
    (forall j, (j < 100)%nat ->
       animation_active (ticks j (play_clicked initial_gui)) = true) /\
    slider_val (ticks 100 (play_clicked initial_gui)) = min_width /\
    animation_active (ticks 100 (play_clicked initial_gui)) = false /\
    animation_timer (ticks 100 (play_clicked initial_gui)) = None /\
    button_label (ticks 100 (play_clicked initial_gui)) = "Play Animation"%string.
Proof.
  apply (animation_runs_100_ticks initial_gui).
  - reflexivity.
  - unfold min_width, initial_gui, init_width; cbn; lra.
Defined.

End Animation.

(** ** The transform samples of script one *)

Section TransformSamples.
Import Numpy Python DiracFourierGui.

Lemma sinc_abs_le_one (x : R) : x <> 0 -> Rabs (sin x / x) <= 1.
Proof.
  intros Hx. unfold Rdiv. rewrite Rabs_mult, Rabs_inv.
  assert (Hpos : 0 < Rabs x) by now apply Rabs_pos_lt.
  apply (Rmult_le_reg_r (Rabs x)); [exact Hpos |].
  rewrite Rmult_assoc, Rinv_l, Rmult_1_r, Rmult_1_l by lra.
  assert (Hs := sin_sqr_le x).
  apply Rsqr_le_abs_0. unfold Rsqr. exact Hs.
Qed.

Lemma sinc_near_one (x : R) : x <> 0 -> Rabs (sin x / x - 1) <= x * x / 6.
Proof.
  intros Hx.
  assert (Hpos : forall u, 0 < u -> Rabs (sin u / u - 1) <= u * u / 6).
  { intros u Hu.
    assert (Hl := sin_cubic_lower u (Rlt_le _ _ Hu)).
    assert (Hup := sin_lt_x u Hu).
    replace (sin u / u - 1) with ((sin u - u) / u) by (field; lra).
    unfold Rdiv. rewrite Rabs_mult, Rabs_inv, (Rabs_pos_eq u) by lra.
    rewrite (Rabs_left (sin u - u)) by lra.
    apply (Rmult_le_reg_r u); [exact Hu |].
    rewrite Rmult_assoc, Rinv_l, Rmult_1_r by lra. nra. }
  destruct (Rlt_le_dec 0 x) as [H0 | H0]; [now apply Hpos |].
  assert (Hneg : 0 < - x) by lra.
  specialize (Hpos (- x) Hneg). rewrite sin_neg in Hpos.
  replace (- sin x / - x) with (sin x / x) in Hpos by (field; lra).
  replace (- x * - x) with (x * x) in Hpos by ring. exact Hpos.
Qed.

Lemma compute_ft_map (f : list R) (epsilon : R) :
  compute_ft f epsilon =
  if Rlt_dec epsilon 0.005 then map (fun _ => Fin 1) f
  else map (fun fi => if Req_dec_T fi 0 then Fin 1
                      else Fin (sin (PI * fi * epsilon) / (PI * fi * epsilon))) f.
Proof.
  unfold compute_ft, Rltb.
  destruct (Rlt_dec epsilon 0.005) as [Hlt | Hge]; [reflexivity |].
  unfold mask_fill. rewrite !map_map. apply map_ext; intros fi.
  unfold divide.
  destruct (Req_dec_T fi 0) as [-> | Hfi].
  - replace (PI * 0 * epsilon) with 0 by ring.
    rewrite sin_0, !Reqb_true by reflexivity. reflexivity.
  - rewrite Reqb_false; [reflexivity |].
    assert (HPI := PI_RGT_0).
    apply Rmult_integral_contrapositive_currified; [| lra].
    apply Rmult_integral_contrapositive_currified; lra.
Qed.

Lemma sinc_arg_nonzero (fi epsilon : R) :
  fi <> 0 -> ~ epsilon < 0.005 -> PI * fi * epsilon <> 0.
Proof.
  intros Hfi Hge. assert (HPI := PI_RGT_0).
  apply Rmult_integral_contrapositive_currified; [| lra].
  apply Rmult_integral_contrapositive_currified; lra.
Qed.

(** X4.  Whatever the frequencies and the width, every sample returned by
    [compute_ft] is a finite number of absolute value at most 1: neither
    the NaN of [0/0] nor an infinity reaches the plot. *)
Theorem compute_ft_finite_bounded (f : list R) (epsilon : R) :
  length (compute_ft f epsilon) = length f /\
  Forall (fun y => exists v, y = Fin v /\ Rabs v <= 1) (compute_ft f epsilon).
Proof.
  rewrite compute_ft_map.
  destruct (Rlt_dec epsilon 0.005) as [Hlt | Hge].
  - split; [apply length_map |]. apply Forall_forall. intros y Hy.
    apply in_map_iff in Hy. destruct Hy as (fi & <- & _).
    exists 1. split; [reflexivity |]. rewrite Rabs_pos_eq; lra.
  - split; [apply length_map |]. apply Forall_forall. intros y Hy.
    apply in_map_iff in Hy. destruct Hy as (fi & <- & _).
    destruct (Req_dec_T fi 0) as [H0 | Hne].
    + exists 1. split; [reflexivity |]. rewrite Rabs_pos_eq; lra.
    + eexists. split; [reflexivity |].
      apply sinc_abs_le_one. now apply sinc_arg_nonzero.
Qed.

(** X5.  Every transform sample is within [(pi f epsilon)^2 / 6] of the
    limit value 1, on either side of the threshold: the curve flattens to 1
    as the width shrinks. *)
Theorem compute_ft_near_one (f : list R) (epsilon : R) (i : nat) :
  (i < length f)%nat ->
  exists v,
    nth i (compute_ft f epsilon) NaN = Fin v /\
    Rabs (v - 1) <= (PI * nth i f 0 * epsilon) * (PI * nth i f 0 * epsilon) / 6.
Proof.
  intros Hi. rewrite compute_ft_map.
  assert (Hsq : 0 <= (PI * nth i f 0 * epsilon) * (PI * nth i f 0 * epsilon) / 6).
  { assert (H := Rle_0_sqr (PI * nth i f 0 * epsilon)). unfold Rsqr in H. lra. }
  destruct (Rlt_dec epsilon 0.005) as [Hlt | Hge].
  - rewrite (nth_map_lt _ _ _ _ 0) by exact Hi.
    exists 1. split; [reflexivity |].
    replace (1 - 1) with 0 by ring. rewrite Rabs_R0. exact Hsq.
  - rewrite (nth_map_lt _ _ _ _ 0) by exact Hi.
    destruct (Req_dec_T (nth i f 0) 0) as [H0 | Hne].
    + exists 1. split; [reflexivity |].
      replace (1 - 1) with 0 by ring. rewrite Rabs_R0. exact Hsq.
    + eexists. split; [reflexivity |].
      apply sinc_near_one. now apply sinc_arg_nonzero.
Qed.

Lemma compute_ft_near_one_witness :
  exists v,
    nth 0 (compute_ft [20] 0.5) NaN = Fin v /\
    Rabs (v - 1) <= (PI * nth 0 [20] 0 * 0.5) * (PI * nth 0 [20] 0 * 0.5) / 6.
Proof. apply (compute_ft_near_one [20] 0.5 0). cbn. lia. Defined.

(** X6.  The transform is even in the frequency: mirroring the frequency
    axis leaves every sample unchanged. *)
Theorem compute_ft_even (f : list R) (epsilon : R) :
  compute_ft (map Ropp f) epsilon = compute_ft f epsilon.
Proof.
  rewrite !compute_ft_map.
  destruct (Rlt_dec epsilon 0.005) as [Hlt | Hge].
  - rewrite map_map. reflexivity.
  - rewrite map_map. apply map_ext. intros fi.
    destruct (Req_dec_T (- fi) 0) as [H0 | Hne];
      destruct (Req_dec_T fi 0) as [H0' | Hne']; try reflexivity; try lra.
    f_equal.
    replace (PI * - fi * epsilon) with (- (PI * fi * epsilon)) by ring.
    rewrite sin_neg. assert (HPI := PI_RGT_0). field. repeat split; lra.
Qed.

End TransformSamples.

(** ** The redraw of script one *)

Section Redraw.
Import Numpy Python DiracFourierGui.

Lemma update_plots_some (width : R) :
  width <> 0 ->
  exists v,
    update_plots width = Some v /\
    y_time v = map (fun ti => if Rle_dec (Rabs ti) (width / 2) then 1 / width else 0) t_axis /\
    ylim_top v = Rmax 1.2 ((if Rltb 0 width then 1.0 / width else 1.0) * 1.1) /\
    y_freq v = compute_ft f_axis width /\
    flat_alpha v = (if Rltb width 0.01 then 1.0 - width / 0.01 else 0) /\
    freq_alpha v = (if Rltb width 0.01 then 1.0 - (1.0 - width / 0.01) else 1.0) /\
    title_width v = width.
Proof.
  intros Hw. unfold update_plots. rewrite (dirac_rect_map _ _ Hw).
  eexists. split; [reflexivity |].
  cbn [y_time ylim_top y_freq flat_alpha freq_alpha title_width].
  repeat split; destruct (Rltb width 0.01); reflexivity.
Qed.

(** X7.  For every positive width the redraw succeeds and the pulse fits
    the time axes: the upper y-limit is at least 1.2 and every pulse sample
    lies between the lower limit 0 and the upper limit. *)
Theorem update_plots_pulse_fits (width : R) :
  0 < width ->
  exists v,
    update_plots width = Some v /\
    length (y_time v) = length t_axis /\
    1.2 <= ylim_top v /\
    1 / width < ylim_top v /\
    Forall (fun y => 0 <= y <= ylim_top v) (y_time v).
Proof.
  intros Hw.
  destruct (update_plots_some width) as (v & Hv & Hy & Htop & _); [lra |].
  exists v. split; [exact Hv |].
  assert (Hinv : 0 < 1 / width) by (apply Rdiv_lt_0_compat; lra).
  assert (Htop1 : 1.2 <= ylim_top v) by (rewrite Htop; apply Rmax_l).
  assert (Htop2 : 1 / width < ylim_top v).
  { rewrite Htop, Rltb_true by exact Hw.
    eapply Rlt_le_trans; [| apply Rmax_r]. lra. }
  split; [rewrite Hy; apply length_map |].
  split; [exact Htop1 |]. split; [exact Htop2 |].
  rewrite Hy. apply Forall_forall. intros y Hin.
  apply in_map_iff in Hin. destruct Hin as (ti & <- & _).
  destruct (Rle_dec (Rabs ti) (width / 2)); lra.
Qed.

Lemma update_plots_pulse_fits_witness :
  exists v,
    update_plots init_width = Some v /\
    length (y_time v) = length t_axis /\
    1.2 <= ylim_top v /\
    1 / init_width < ylim_top v /\
    Forall (fun y => 0 <= y <= ylim_top v) (y_time v).
Proof. apply (update_plots_pulse_fits init_width). unfold init_width. lra. Defined.

(** X8.  For every positive width the two alpha values of the crossfade
    are valid opacities that add up to 1; from the width 0.01 on the flat
    line is invisible and the transform curve opaque, and below it the flat
    line gains [1 - width / 0.01]. *)
Theorem update_plots_crossfade (width : R) :
  0 < width ->
  exists v,
    update_plots width = Some v /\
    0 <= flat_alpha v <= 1 /\
    0 <= freq_alpha v <= 1 /\
    flat_alpha v + freq_alpha v = 1 /\
    (0.01 <= width -> flat_alpha v = 0 /\ freq_alpha v = 1) /\
    (width < 0.01 -> flat_alpha v = 1 - 100 * width /\ 0 < flat_alpha v).
Proof.
  intros Hw.
  destruct (update_plots_some width) as (v & Hv & _ & _ & _ & Hfl & Hfr & _); [lra |].
  exists v. split; [exact Hv |]. rewrite Hfl, Hfr. unfold Rltb.
  destruct (Rlt_dec width 0.01) as [Hlt | Hge]; repeat split; intros; lra.
Qed.

Lemma update_plots_crossfade_witness :
  exists v,
    update_plots 0.004 = Some v /\
    0 <= flat_alpha v <= 1 /\
    0 <= freq_alpha v <= 1 /\
    flat_alpha v + freq_alpha v = 1 /\
    (0.01 <= 0.004 -> flat_alpha v = 0 /\ freq_alpha v = 1) /\
    (0.004 < 0.01 -> flat_alpha v = 1 - 100 * 0.004 /\ 0 < flat_alpha v).
Proof. apply (update_plots_crossfade 0.004). lra. Defined.

End Redraw.

(** ** The states the event loop can reach *)

Section Reachable.
Import Numpy Python DiracFourierGui.

Let in_bounds (v : R) : Prop := min_width <= v <= max_width.

Let safe (g : gui) : Prop :=
  in_bounds (slider_val g) /\
  (animation_active g = true ->
     exists tm fr,
       animation_timer g = Some tm /\
       animation_frames g = Some fr /\
       (current_frame g < length fr)%nat /\
       Forall in_bounds fr) /\
  (animation_active g = false -> animation_timer g = None).

Lemma initial_safe : safe initial_gui.
Proof.
  unfold safe, in_bounds, initial_gui, min_width, max_width, init_width. cbn.
  split; [lra |]. split; [discriminate | reflexivity].
Qed.

Lemma play_clicked_safe (g : gui) : safe g -> safe (play_clicked g).
Proof.
  intros (Hb & Hact & Hidle). unfold play_clicked.
  destruct (animation_active g) eqn:Ha.
  - unfold safe. cbn. split; [exact Hb |]. split; [discriminate | reflexivity].
  - unfold safe. cbn [slider_val animation_active animation_timer animation_frames
                     current_frame].
    split; [exact Hb |]. split; [| discriminate].
    intros _. do 2 eexists. split; [reflexivity |]. split; [reflexivity |].
    unfold Rleb. destruct (Rle_dec (slider_val g) min_width) as [Hle | Hgt].
    + destruct (logspace_descent min_width max_width min_width_pos min_lt_max_width)
        as (Hlen & _ & _ & _ & _ & Hin).
      split; [rewrite Hlen; lia | exact Hin].
    + assert (Hlo : min_width < slider_val g) by lra.
      destruct (logspace_descent min_width (slider_val g) min_width_pos Hlo)
        as (Hlen & _ & _ & _ & _ & Hin).
      split; [rewrite Hlen; lia |].
      eapply Forall_impl; [| exact Hin]. cbv beta. unfold in_bounds in *. intros v Hv. lra.
Qed.

Lemma timer_tick_safe (g : gui) : safe g -> safe (timer_tick g).
Proof.
  intros Hs. assert (Hs' := Hs). destruct Hs' as (Hb & Hact & Hidle).
  unfold timer_tick. destruct (animation_timer g) as [tm |] eqn:Htm; [| exact Hs].
  destruct (animation_active g) eqn:Ha; [| now specialize (Hidle eq_refl)].
  destruct (Hact eq_refl) as (tm' & fr & _ & Hfr & Hc & Hin).
  unfold step_animation. rewrite Ha, Hfr. cbn [negb orb].
  destruct (Nat.leb_spec (length fr) (current_frame g)) as [Hle | _]; [lia |].
  cbn [current_frame].
  assert (Hnth : in_bounds (nth (current_frame g) fr 0)).
  { rewrite Forall_forall in Hin. apply Hin. now apply nth_In. }
  destruct (Nat.leb_spec (length fr) (S (current_frame g))) as [_ | Hlt].
  - unfold safe. cbn. split; [exact Hnth |]. split; [discriminate | reflexivity].
  - unfold safe. cbn. split; [exact Hnth |]. split; [| discriminate].
    intros _. exists tm, fr. repeat split; assumption.
Qed.

Lemma handle_safe (g : gui) (ev : event) :
  safe g -> admissible ev -> safe (handle g ev).
Proof.
  intros Hs Hev. destruct ev as [| | v]; cbn [handle].
  - now apply play_clicked_safe.
  - now apply timer_tick_safe.
  - destruct Hs as (_ & Hact & Hidle). unfold safe, set_slider. cbn.
    split; [exact Hev |]. split; assumption.
Qed.

Lemma run_safe (evs : list event) (g : gui) :
  safe g -> Forall admissible evs -> safe (run evs g).
Proof.
  revert g. induction evs as [| ev evs IH]; intros g Hs Hall; [exact Hs |].
  inversion Hall as [| ? ? Hev Hrest]; subst.
  cbn [run fold_left]. apply IH; [now apply handle_safe | exact Hrest].
Qed.

(** X9.  Whatever clicks, timer ticks and slider moves arrive, in any
    order, the slider value stays within [0.001, 2.0]; while the animation
    is active a timer and a frame array exist and the frame index is inside
    the array, so [step_animation] never indexes past the end; while it is
    idle there is no timer; and the redraw for the slider value succeeds. *)
Theorem reachable_states_safe (evs : list event) :
  Forall admissible evs ->
  let g := run evs initial_gui in
  min_width <= slider_val g <= max_width /\
  (animation_active g = true ->
     exists tm fr,
       animation_timer g = Some tm /\
       animation_frames g = Some fr /\
       (current_frame g < length fr)%nat /\
       Forall (fun v => min_width <= v <= max_width) fr) /\
  (animation_active g = false -> animation_timer g = None) /\
  exists v, slider_update g = Some v.
Proof.
  intros Hall g.
  destruct (run_safe evs initial_gui initial_safe Hall) as (Hb & Hact & Hidle).
  fold g in Hb, Hact, Hidle. unfold in_bounds in Hb.
  split; [exact Hb |]. split; [exact Hact |]. split; [exact Hidle |].
  assert (Hpos := min_width_pos).
  destruct (update_plots_some (slider_val g)) as (v & Hv & _); [lra |].
  exists v. exact Hv.
Qed.

Lemma reachable_states_safe_witness :
  let g := run [PlayClicked; TimerTick; SliderMoved 1; PlayClicked; PlayClicked]
               initial_gui in
  min_width <= slider_val g <= max_width /\
  (animation_active g = true ->
     exists tm fr,
       animation_timer g = Some tm /\
       animation_frames g = Some fr /\
       (current_frame g < length fr)%nat /\
       Forall (fun v => min_width <= v <= max_width) fr) /\
  (animation_active g = false -> animation_timer g = None) /\
  exists v, slider_update g = Some v.
Proof.
  apply (reachable_states_safe
           [PlayClicked; TimerTick; SliderMoved 1; PlayClicked; PlayClicked]).
  repeat constructor; unfold min_width, max_width; lra.
Defined.

End Reachable.

(** ** Clicks between animations *)

Section Replay.
Import Numpy Python DiracFourierGui.

Lemma play_clicked_from_idle (s : gui) :
  animation_active s = false ->
  play_clicked s =
  {| slider_val := slider_val s;
     button_label := "Stop Animation";
     animation_active := true;
     animation_timer := Some {| interval := 50 |};
     animation_frames :=
       Some (if Rleb (slider_val s) min_width
             then logspace (log10 max_width) (log10 min_width) 100
             else logspace (log10 (slider_val s)) (log10 min_width) 100);
     current_frame := 0 |}.
Proof. intros H. unfold play_clicked. rewrite H. reflexivity. Qed.

Lemma play_clicked_from_active (s : gui) :
  animation_active s = true ->
  play_clicked s =
  {| slider_val := slider_val s;
     button_label := "Play Animation";
     animation_active := false;
     animation_timer := None;
     animation_frames := animation_frames s;
     current_frame := current_frame s |}.
Proof. intros H. unfold play_clicked. rewrite H. reflexivity. Qed.

Lemma play_clicked_idle_state (g : gui) :
  animation_active g = false ->
  min_width < slider_val g ->
  let fr := logspace (log10 (slider_val g)) (log10 min_width) 100 in
  animation_active (play_clicked g) = true /\
  (exists tm, animation_timer (play_clicked g) = Some tm) /\
  animation_frames (play_clicked g) = Some fr /\
  current_frame (play_clicked g) = 0%nat /\
  button_label (play_clicked g) = "Stop Animation"%string.
Proof.
  intros Hidle Hlo fr. rewrite (play_clicked_from_idle g Hidle).
  cbn [animation_active animation_timer animation_frames current_frame button_label].
  rewrite Rleb_false by lra.
  repeat split. eexists. reflexivity.
Qed.

(** X10.  An animation that has run its 100 ticks leaves the slider at the
    minimum width, so the next click does not start from the slider value:
    it replays the frames from the maximum width 2.0 down to 0.001. *)
Theorem click_after_finished_animation_replays_from_max (g : gui) :
  animation_active g = false ->
  min_width < slider_val g ->
  let g' := play_clicked (ticks 100 (play_clicked g)) in
  animation_active g' = true /\
  animation_frames g' = Some (logspace (log10 max_width) (log10 min_width) 100) /\
  current_frame g' = 0%nat /\
  slider_val g' = min_width.
Proof.
  intros Hidle Hlo g'.
  destruct (logspace_descent min_width (slider_val g) min_width_pos Hlo)
    as (Hlen & _ & _ & Hlast & _ & _).
  destruct (play_clicked_idle_state g Hidle Hlo) as (Ha & Ht & Hf & Hc & Hl).
  set (fr := logspace (log10 (slider_val g)) (log10 min_width) 100) in *.
  destruct (ticks_complete fr (play_clicked g)) as (Hv & Hact & _ & _).
  { repeat split; assumption. }
  { rewrite Hlen. lia. }
  rewrite Hlen in Hv, Hact.
  replace (100 - 1)%nat with 99%nat in Hv by lia. rewrite Hlast in Hv.
  unfold g'. clear g'.
  generalize dependent (ticks 100 (play_clicked g)). intros s Hv Hact.
  rewrite (play_clicked_from_idle s Hact).
  cbn [animation_active animation_frames current_frame slider_val].
  rewrite Hv, Rleb_true by lra. repeat split.
Qed.

Lemma click_after_finished_animation_replays_from_max_witness :
  let g' := play_clicked (ticks 100 (play_clicked initial_gui)) in
  animation_active g' = true /\
  animation_frames g' = Some (logspace (log10 max_width) (log10 min_width) 100) /\
  current_frame g' = 0%nat /\
  slider_val g' = min_width.
Proof.
  apply (click_after_finished_animation_replays_from_max initial_gui).
  - reflexivity.
  - unfold min_width, initial_gui, init_width; cbn; lra.
Defined.

(** X11.  Stopping an animation after [j] ticks (1 to 99) and clicking
    again resumes from where it stopped: the new frames are the 100
    log-spaced values from the frame shown last, which is still above the
    minimum width, down to 0.001, and the frame counter restarts at 0. *)
Theorem stop_then_play_resumes_from_current_frame (g : gui) (j : nat) :
  animation_active g = false ->
  min_width < slider_val g ->
  (0 < j < 100)%nat ->
  let fr := logspace (log10 (slider_val g)) (log10 min_width) 100 in
  let shown := nth (j - 1) fr 0 in
  let g' := play_clicked (play_clicked (ticks j (play_clicked g))) in
  min_width < shown /\
  slider_val g' = shown /\
  animation_active g' = true /\
  animation_frames g' = Some (logspace (log10 shown) (log10 min_width) 100) /\
  current_frame g' = 0%nat.
Proof.
  intros Hidle Hlo Hj fr shown g'.
  destruct (logspace_descent min_width (slider_val g) min_width_pos Hlo)
    as (Hlen & _ & _ & Hlast & Hdec & _).
  fold fr in Hlen, Hlast, Hdec.
  destruct (play_clicked_idle_state g Hidle Hlo) as (Ha & Ht & Hf & Hc & Hl).
  fold fr in Hf.
  destruct (ticks_running fr j 0 (play_clicked g)) as [Hrun Hval].
  { repeat split; assumption. }
  { rewrite Hlen. lia. }
  destruct Hrun as (Hact & _ & _ & _ & _).
  specialize (Hval ltac:(lia)). cbn [Nat.add] in Hval. fold shown in Hval.
  assert (Hshown : min_width < shown).
  { rewrite <- Hlast. unfold shown. apply Hdec. lia. }
  split; [exact Hshown |].
  unfold g'. clear g'.
  generalize dependent (ticks j (play_clicked g)). intros g1 Hact Hval.
  assert (Hstop : animation_active (play_clicked g1) = false /\
                  slider_val (play_clicked g1) = shown).
  { rewrite (play_clicked_from_active g1 Hact).
    cbn [animation_active slider_val]. split; [reflexivity | exact Hval]. }
  destruct Hstop as [Hs1 Hs2].
  rewrite (play_clicked_from_idle _ Hs1).
  cbn [animation_active animation_frames current_frame slider_val].
  rewrite Hs2, Rleb_false by lra. repeat split.
Qed.

Lemma stop_then_play_resumes_from_current_frame_witness :
  let fr := logspace (log10 (slider_val initial_gui)) (log10 min_width) 100 in
  let shown := nth (50 - 1) fr 0 in
  let g' := play_clicked (play_clicked (ticks 50 (play_clicked initial_gui))) in
  min_width < shown /\
  slider_val g' = shown /\
  animation_active g' = true /\
  animation_frames g' = Some (logspace (log10 shown) (log10 min_width) 100) /\
  current_frame g' = 0%nat.
Proof.
  apply (stop_then_play_resumes_from_current_frame initial_gui 50).
  - reflexivity.
  - unfold min_width, initial_gui, init_width; cbn; lra.
  - lia.
Defined.

End Replay.

(** ** The periodic time-domain signal *)

Section PeriodicSignal.
Import Numpy FourierLimit.

Lemma mod_range (t T : R) : 0 < T -> 0 <= mod_ t T < T.
Proof.
  intros HT. unfold mod_.
  destruct (Zfloor_bound (t / T)) as [Hlo Hhi].
  assert (Ht : t = t / T * T) by (field; lra).
  split.
  - apply (Rmult_le_compat_r T) in Hlo; [| lra]. lra.
  - apply (Rmult_lt_compat_r T) in Hhi; [| lra]. lra.
Qed.

Lemma mod_shift (t T : R) (k : Z) : T <> 0 -> mod_ (t + IZR k * T) T = mod_ t T.
Proof.
  intros HT. unfold mod_.
  replace ((t + IZR k * T) / T) with (t / T + IZR k) by (field; exact HT).
  rewrite Zfloor_addz, plus_IZR. ring.
Qed.

Lemma mod_inside (t T : R) : 0 <= t < T -> mod_ t T = t.
Proof.
  intros [H0 HT]. unfold mod_.
  rewrite (Zfloor_eq 0).
  - ring.
  - split.
    + apply Rle_mult_inv_pos; lra.
    + apply (Rmult_lt_reg_r T); [lra |].
      replace (t / T * T) with t by (field; lra). lra.
Qed.

(** X12.  The plotted signal is periodic: shifting every time sample by a
    whole number of periods leaves it unchanged. *)
Theorem x_periodic_time_domain_periodic (t : list R) (T : R) (k : Z) :
  T <> 0 ->
  x_periodic_time_domain (map (fun ti => ti + IZR k * T) t) T =
  x_periodic_time_domain t T.
Proof.
  intros HT. unfold x_periodic_time_domain, where_.
  rewrite !map_map. apply map_ext. intros ti.
  now rewrite mod_shift.
Qed.

Lemma x_periodic_time_domain_periodic_witness :
  x_periodic_time_domain (map (fun ti => ti + IZR 3 * T0) [0; 1 / 2; 2]) T0 =
  x_periodic_time_domain [0; 1 / 2; 2] T0.
Proof.
  apply (x_periodic_time_domain_periodic [0; 1 / 2; 2] T0 3). unfold T0. lra.
Defined.

Lemma x_periodic_time_domain_pulse_aux (t : list R) (T : R) :
  0 < T ->
  x_periodic_time_domain t T =
    map (fun ti => if Rlt_dec (mod_ ti T) T1 then 1 else 0) t /\
  (Forall (fun ti => 0 <= ti < T) t ->
   x_periodic_time_domain t T = map (fun ti => if Rlt_dec ti T1 then 1 else 0) t).
Proof.
  intros HT.
  assert (Hgen : x_periodic_time_domain t T =
                 map (fun ti => if Rlt_dec (mod_ ti T) T1 then 1 else 0) t).
  { unfold x_periodic_time_domain, where_. rewrite map_map.
    apply map_ext. intros ti.
    destruct (mod_range ti T HT) as [H0 _].
    rewrite Rleb_true by exact H0. cbn [andb]. unfold Rltb.
    destruct (Rlt_dec (mod_ ti T) T1); reflexivity. }
  split; [exact Hgen |].
  intros Hall. rewrite Hgen. apply map_ext_in. intros ti Hin.
  rewrite Forall_forall in Hall. now rewrite mod_inside by now apply Hall.
Qed.

(** X13.  For a positive period every sample is 0 or 1, and it is 1
    exactly when the time reduced modulo the period is below the pulse
    width; within the first period the signal is the pulse on [0, T1)
    itself. *)
Theorem x_periodic_time_domain_pulse (t : list R) (T : R) :
  0 < T ->
  Forall (fun x => x = 0 \/ x = 1) (x_periodic_time_domain t T) /\
  x_periodic_time_domain t T =
    map (fun ti => if Rlt_dec (mod_ ti T) T1 then 1 else 0) t /\
  (Forall (fun ti => 0 <= ti < T) t ->
   x_periodic_time_domain t T = map (fun ti => if Rlt_dec ti T1 then 1 else 0) t).
Proof.
  intros HT. destruct (x_periodic_time_domain_pulse_aux t T HT) as [Hgen Hfirst].
  split; [| split; assumption].
  rewrite Hgen. apply Forall_forall. intros x Hin.
  apply in_map_iff in Hin. destruct Hin as (ti & <- & _).
  destruct (Rlt_dec (mod_ ti T) T1); [right | left]; reflexivity.
Qed.

Lemma x_periodic_time_domain_pulse_witness :
  Forall (fun x => x = 0 \/ x = 1) (x_periodic_time_domain [0; 1 / 2; 2] T0) /\
  x_periodic_time_domain [0; 1 / 2; 2] T0 =
    map (fun ti => if Rlt_dec (mod_ ti T0) T1 then 1 else 0) [0; 1 / 2; 2] /\
  (Forall (fun ti => 0 <= ti < T0) [0; 1 / 2; 2] ->
   x_periodic_time_domain [0; 1 / 2; 2] T0 =
   map (fun ti => if Rlt_dec ti T1 then 1 else 0) [0; 1 / 2; 2]).
Proof. apply (x_periodic_time_domain_pulse [0; 1 / 2; 2] T0). unfold T0. lra. Defined.

(** X14.  When the period does not exceed the pulse width, as at the lower
    end [T = 1] of the slider, the pulses touch: the signal is 1 at every
    time. *)
Theorem x_periodic_time_domain_saturates (t : list R) (T : R) :
  0 < T <= T1 ->
  x_periodic_time_domain t T = map (fun _ => 1) t.
Proof.
  intros [HT HT1].
  destruct (x_periodic_time_domain_pulse_aux t T HT) as [Hgen _].
  rewrite Hgen. apply map_ext. intros ti.
  destruct (mod_range ti T HT) as [_ Hlt].
  destruct (Rlt_dec (mod_ ti T) T1); [reflexivity | lra].
Qed.

Lemma x_periodic_time_domain_saturates_witness :
  x_periodic_time_domain [0; 1 / 2; 2] 1 = map (fun _ => 1) [0; 1 / 2; 2].
Proof.
  apply (x_periodic_time_domain_saturates [0; 1 / 2; 2] 1). unfold T1. lra.
Defined.

End PeriodicSignal.

(** ** Symmetry of the double-sided spectrum *)

Section Conjugation.
Import Numpy FourierLimit.

Lemma Cconj_add (a b : C) : Cconj (Cadd a b) = Cadd (Cconj a) (Cconj b).
Proof. unfold Cconj, Cadd; cbn [fst snd]. f_equal; ring. Qed.

Lemma Cconj_scale (r : R) (z : C) : Cconj (Cmul (RtoC r) z) = Cmul (RtoC r) (Cconj z).
Proof. unfold Cconj, Cmul, RtoC; cbn [fst snd]. f_equal; ring. Qed.

Lemma Cconj_div_real (z : C) (r : R) : Cconj (Cdiv_real z r) = Cdiv_real (Cconj z) r.
Proof. unfold Cconj, Cdiv_real; cbn [fst snd]. f_equal. unfold Rdiv. ring. Qed.

Lemma Cabs_conj (z : C) : Cabs (Cconj z) = Cabs z.
Proof. unfold Cabs, Cconj; cbn [fst snd]. f_equal. ring. Qed.

Lemma Csum_conj (l : list C) : Csum (map Cconj l) = Cconj (Csum l).
Proof.
  induction l as [| z l IH]; cbn.
  - unfold Cconj, RtoC; cbn [fst snd]. f_equal. ring.
  - unfold Csum in IH. now rewrite IH, Cconj_add.
Qed.

Lemma tl_map {A B : Type} (f : A -> B) (l : list A) : tl (map f l) = map f (tl l).
Proof. destruct l; reflexivity. Qed.

Lemma removelast_map {A B : Type} (f : A -> B) (l : list A) :
  removelast (map f l) = map f (removelast l).
Proof.
  induction l as [| x l IH]; [reflexivity |].
  destruct l as [| y l]; [reflexivity |].
  cbn [map removelast] in *. now rewrite IH.
Qed.

Lemma zip_with_conj_r {A : Type} (F : A -> C -> C) (d : list A) (s : list C) :
  (forall a z, F a (Cconj z) = Cconj (F a z)) ->
  zip_with F d (map Cconj s) = map Cconj (zip_with F d s).
Proof.
  intros HF. revert s. induction d as [| a d IH]; intros [| z s]; cbn;
    try reflexivity.
  now rewrite HF, IH.
Qed.

Lemma zip_with_add_conj (a b : list C) :
  zip_with Cadd (map Cconj a) (map Cconj b) = map Cconj (zip_with Cadd a b).
Proof.
  revert b. induction a as [| x a IH]; intros [| y b]; cbn; try reflexivity.
  now rewrite IH, Cconj_add.
Qed.

(** [np.trapz] of the conjugate samples is the conjugate of [np.trapz]. *)
Lemma trapz_conj (y : list C) (x : list R) :
  trapz (map Cconj y) x = Cconj (trapz y x).
Proof.
  unfold trapz. rewrite tl_map, removelast_map, zip_with_add_conj.
  rewrite zip_with_conj_r, Csum_conj; [reflexivity |].
  intros a z. now rewrite Cconj_div_real, Cconj_scale.
Qed.

Lemma harmonic_neg (alpha t : R) : harmonic (- alpha) t = Cconj (harmonic alpha t).
Proof.
  unfold harmonic, Cconj; cbn [fst snd].
  replace (- alpha * t) with (- (alpha * t)) by ring.
  now rewrite cos_neg, sin_neg.
Qed.

(** The coefficient of harmonic [-n] is the conjugate of that of [n]. *)
Lemma Cn_val_neg (T : R) (t_int x_int : list R) (n : Z) :
  Cn_val T t_int x_int (- n) = Cconj (Cn_val T t_int x_int n).
Proof.
  unfold Cn_val. rewrite Cconj_scale. f_equal.
  rewrite <- trapz_conj. f_equal.
  replace (map (fun t => Cexp (phase_arg (IZR (- n) / T) t)) t_int)
    with (map Cconj (map (fun t => Cexp (phase_arg (IZR n / T) t)) t_int)).
  - apply zip_with_conj_r. intros a z. apply eq_sym, Cconj_scale.
  - rewrite map_map. apply map_ext. intros t.
    rewrite !Cexp_phase_arg, opp_IZR.
    replace (2 * PI * (- IZR n / T)) with (- (2 * PI * (IZR n / T)))
      by (unfold Rdiv; ring).
    now rewrite harmonic_neg.
Qed.

(** X15.  The returned spectrum is two-sided and symmetric: counted from
    the two ends, the frequencies are opposite, the coefficients are
    complex conjugates, and so the magnitudes are equal. *)
Theorem compute_fourier_series_conjugate_symmetric (T f_max : R) :
  T <> 0 ->
  exists fn Cn,
    compute_fourier_series T f_max = Some (fn, Cn) /\
    length fn = length Cn /\
    forall k, (k < length Cn)%nat ->
      let k' := (length Cn - 1 - k)%nat in
      nth k' fn 0 = - nth k fn 0 /\
      nth k' Cn (RtoC 0) = Cconj (nth k Cn (RtoC 0)) /\
      Cabs (nth k' Cn (RtoC 0)) = Cabs (nth k Cn (RtoC 0)).
Proof.
  intros HT. unfold compute_fourier_series. rewrite Reqb_false by exact HT.
  do 2 eexists. split; [reflexivity |].
  split; [now rewrite !length_map |].
  set (n_max := Zfloor (f_max * T)).
  set (n_vals := arange (- n_max) (n_max + 1)).
  intros k Hk. rewrite length_map in Hk. rewrite !length_map.
  assert (Hlen : length n_vals = Z.to_nat (n_max + 1 - - n_max))
    by apply length_arange.
  assert (Hk' : (length n_vals - 1 - k < length n_vals)%nat) by lia.
  assert (Hsym : nth (length n_vals - 1 - k) n_vals 0%Z = (- nth k n_vals 0)%Z).
  { assert (Hk2 : (k < Z.to_nat (n_max + 1 - - n_max))%nat) by lia.
    rewrite Hlen. unfold n_vals. rewrite !nth_arange by lia. lia. }
  rewrite !(nth_map_lt _ _ _ _ 0%Z) by assumption.
  rewrite Hsym, Cn_val_neg, Cabs_conj, opp_IZR.
  repeat split. unfold Rdiv. ring.
Qed.

Lemma compute_fourier_series_conjugate_symmetric_witness :
  exists fn Cn,
    compute_fourier_series T0 10.0 = Some (fn, Cn) /\
    length fn = length Cn /\
    forall k, (k < length Cn)%nat ->
      let k' := (length Cn - 1 - k)%nat in
      nth k' fn 0 = - nth k fn 0 /\
      nth k' Cn (RtoC 0) = Cconj (nth k Cn (RtoC 0)) /\
      Cabs (nth k' Cn (RtoC 0)) = Cabs (nth k Cn (RtoC 0)).
Proof.
  apply (compute_fourier_series_conjugate_symmetric T0 10.0). unfold T0. lra.
Defined.

End Conjugation.

(** ** The frequency grid of the series and the shapes handed to the plots *)

Section SpectrumShape.
Import Numpy FourierLimit.

Lemma Zfloor_nonneg (x : R) : 0 <= x -> (0 <= Zfloor x)%Z.
Proof. intros Hx. now apply Zfloor_lub. Qed.

Lemma Zfloor_neg (x : R) : x < 0 -> (Zfloor x < 0)%Z.
Proof.
  intros Hx. destruct (Zfloor_bound x) as [Hlo _].
  apply lt_IZR. lra.
Qed.

(** X16.  For a positive period and a nonnegative [f_max] the returned
    frequencies form a grid of [2 floor(f_max T) + 1] lines spaced exactly
    [1/T] apart, with the frequency 0 in the middle, where the coefficient
    is a real number. *)
Theorem compute_fourier_series_frequency_grid (T f_max : R) :
  0 < T -> 0 <= f_max ->
  exists fn Cn,
    compute_fourier_series T f_max = Some (fn, Cn) /\
    let n_max := Z.to_nat (Zfloor (f_max * T)) in
    length fn = (2 * n_max + 1)%nat /\
    length Cn = (2 * n_max + 1)%nat /\
    nth n_max fn 0 = 0 /\
    snd (nth n_max Cn (RtoC 0)) = 0 /\
    forall k, (S k < length fn)%nat -> nth (S k) fn 0 - nth k fn 0 = 1 / T.
Proof.
  intros HT Hf. unfold compute_fourier_series. rewrite Reqb_false by lra.
  do 2 eexists. split; [reflexivity |]. cbv zeta.
  assert (Hn : (0 <= Zfloor (f_max * T))%Z)
    by (apply Zfloor_nonneg, Rmult_le_pos; lra).
  set (n_max := Zfloor (f_max * T)) in *.
  set (n_vals := arange (- n_max) (n_max + 1)).
  assert (Hlen : length n_vals = (2 * Z.to_nat n_max + 1)%nat)
    by (unfold n_vals; rewrite length_arange; lia).
  assert (Hmid : nth (Z.to_nat n_max) n_vals 0%Z = 0%Z)
    by (unfold n_vals; rewrite nth_arange; lia).
  rewrite !length_map.
  split; [exact Hlen |]. split; [exact Hlen |].
  split.
  { rewrite (nth_map_lt _ _ _ _ 0%Z) by lia. rewrite Hmid. unfold Rdiv. ring. }
  split.
  { rewrite (nth_map_lt _ _ _ _ 0%Z) by lia. rewrite Hmid.
    set (t_int := linspace_open 0 T N).
    set (x_int := where_ (fun t => Rltb t T1) 1 0 t_int).
    assert (Hc := Cn_val_neg T t_int x_int 0). cbn [Z.opp] in Hc.
    apply (f_equal snd) in Hc. unfold Cconj in Hc. cbn [snd] in Hc. lra. }
  intros k Hk.
  rewrite !(nth_map_lt _ _ _ _ 0%Z) by lia.
  unfold n_vals. rewrite !nth_arange by lia.
  rewrite !plus_IZR, <- !INR_IZR_INZ, S_INR. field. lra.
Qed.

Lemma compute_fourier_series_frequency_grid_witness :
  exists fn Cn,
    compute_fourier_series T0 10.0 = Some (fn, Cn) /\
    let n_max := Z.to_nat (Zfloor (10.0 * T0)) in
    length fn = (2 * n_max + 1)%nat /\
    length Cn = (2 * n_max + 1)%nat /\
    nth n_max fn 0 = 0 /\
    snd (nth n_max Cn (RtoC 0)) = 0 /\
    forall k, (S k < length fn)%nat -> nth (S k) fn 0 - nth k fn 0 = 1 / T0.
Proof.
  apply (compute_fourier_series_frequency_grid T0 10.0); unfold T0; lra.
Defined.

(** X17.  With a negative [f_max] (and a positive period) the range of
    harmonics is empty: the function returns two empty arrays, not even
    the constant component. *)
Theorem compute_fourier_series_empty (T f_max : R) :
  0 < T -> f_max < 0 ->
  compute_fourier_series T f_max = Some ([], []).
Proof.
  intros HT Hf. unfold compute_fourier_series. rewrite Reqb_false by lra.
  assert (Hn : (Zfloor (f_max * T) < 0)%Z) by (apply Zfloor_neg; nra).
  unfold arange.
  replace (Z.to_nat (Zfloor (f_max * T) + 1 - - Zfloor (f_max * T))) with 0%nat by lia.
  reflexivity.
Qed.

Lemma compute_fourier_series_empty_witness :
  compute_fourier_series T0 (- 1) = Some ([], []).
Proof. apply (compute_fourier_series_empty T0 (- 1)); unfold T0; lra. Defined.

(** X18.  For a positive period the update succeeds and every plot call
    gets arrays of one shape: the stems have one frequency, one magnitude
    and one phase per harmonic, the displayed number of coefficients is the
    number of stems, the overlay has 2001 samples in each of its arrays and
    the time-domain plot 2000. *)
Theorem update_plots_shapes (T : R) :
  0 < T ->
  exists p,
    update_plots T = Some p /\
    (0 < num_coeffs p)%Z /\
    length (fn p) = Z.to_nat (num_coeffs p) /\
    length (Cn_mag p) = Z.to_nat (num_coeffs p) /\
    length (Cn_phase p) = Z.to_nat (num_coeffs p) /\
    length (f_cont p) = 2001%nat /\
    length (Xf_mag p) = 2001%nat /\
    length (Xf_phase p) = 2001%nat /\
    length (Xf_mag_scaled p) = 2001%nat /\
    length (t_plot p) = 2000%nat /\
    length (x_plot p) = 2000%nat.
Proof.
  intros HT. unfold update_plots, compute_fourier_series.
  rewrite Reqb_false by lra. rewrite continuous_transform_rect_map.
  eexists. split; [reflexivity |].
  cbn [num_coeffs fn Cn_mag Cn_phase f_cont Xf_mag Xf_phase Xf_mag_scaled t_plot x_plot].
  assert (Hn : (0 <= Zfloor (10.0 * T))%Z)
    by (apply Zfloor_nonneg; lra).
  unfold x_periodic_time_domain, where_, get_time_axis.
  rewrite !length_map, !length_linspace, length_arange.
  repeat split; lia.
Qed.

Lemma update_plots_shapes_witness :
  exists p,
    update_plots T0 = Some p /\
    (0 < num_coeffs p)%Z /\
    length (fn p) = Z.to_nat (num_coeffs p) /\
    length (Cn_mag p) = Z.to_nat (num_coeffs p) /\
    length (Cn_phase p) = Z.to_nat (num_coeffs p) /\
    length (f_cont p) = 2001%nat /\
    length (Xf_mag p) = 2001%nat /\
    length (Xf_phase p) = 2001%nat /\
    length (Xf_mag_scaled p) = 2001%nat /\
    length (t_plot p) = 2000%nat /\
    length (x_plot p) = 2000%nat.
Proof. apply (update_plots_shapes T0). unfold T0. lra. Defined.

End SpectrumShape.

(** ** The shape of the closed-form transform *)

Section TransformShape.
Import Numpy FourierLimit.

Lemma X_at_sample (f : R) :
  X_at f =
  if Req_dec_T f 0 then RtoC 1
  else Cdiv (Csub (RtoC 1) (Cexp (phase_arg f T1)))
            (Cmul (Cmul (Cmul Ci (RtoC 2)) (RtoC PI)) (RtoC f)).
Proof. unfold X_at. now rewrite continuous_transform_rect_map. Qed.

Lemma X_at_value (f : R) :
  f <> 0 ->
  X_at f = (sin (2 * PI * f) / (2 * PI * f), (cos (2 * PI * f) - 1) / (2 * PI * f)).
Proof.
  intros Hf. rewrite X_at_sample.
  destruct (Req_dec_T f 0); [contradiction |]. now apply transform_quotient_value.
Qed.

Lemma X_at_abs_le_one (f : R) : Cabs (X_at f) <= 1.
Proof.
  rewrite X_at_integral.
  assert (H := harmonic_lipschitz (2 * PI * f) 0 1 ltac:(lra)).
  rewrite harmonic_integral_0 in H.
  replace (Csub (harmonic_integral (2 * PI * f) 1) (RtoC 0))
    with (harmonic_integral (2 * PI * f) 1) in H.
  - lra.
  - destruct (harmonic_integral (2 * PI * f) 1).
    unfold Csub, RtoC; cbn [fst snd]. f_equal; ring.
Qed.

Lemma Rabs_sqr_eq (x : R) : Rabs x * Rabs x = x * x.
Proof. rewrite <- Rabs_mult. apply Rabs_pos_eq, Rle_0_sqr. Qed.

Lemma two_pi_nonzero (f : R) : f <> 0 -> 2 * PI * f <> 0.
Proof.
  intros Hf. assert (HPI := PI_RGT_0).
  apply Rmult_integral_contrapositive_currified; [lra | exact Hf].
Qed.

(** X19.  The magnitude of the transform is the sinc envelope
    [|sin(pi f)| / (pi |f|)] away from [f = 0]; it never exceeds the value
    [T1 = 1] stored at [f = 0]. *)
Theorem continuous_transform_sinc_envelope (f : R) :
  X_at 0 = RtoC T1 /\
  Cabs (X_at f) <= T1 /\
  (f <> 0 -> Cabs (X_at f) = Rabs (sin (PI * f)) / (PI * Rabs f)).
Proof.
  assert (HPI := PI_RGT_0).
  split.
  { rewrite X_at_sample. destruct (Req_dec_T 0 0) as [_ | H]; [| contradiction].
    unfold T1. f_equal. lra. }
  split; [rewrite T1_one; apply X_at_abs_le_one |].
  intros Hf. rewrite X_at_value by exact Hf.
  assert (Hfa : 0 < Rabs f) by now apply Rabs_pos_lt.
  set (b := PI * f).
  assert (Hb : b <> 0)
    by (unfold b; apply Rmult_integral_contrapositive_currified; lra).
  apply Cabs_eq_of_sqr.
  - apply Rle_mult_inv_pos; [apply Rabs_pos | nra].
  - cbn [fst snd].
    replace (2 * PI * f) with (2 * b) by (unfold b; ring).
    rewrite sin_2a, cos_2a_sin.
    replace (Rabs (sin b) / (PI * Rabs f) * (Rabs (sin b) / (PI * Rabs f)))
      with ((Rabs (sin b) * Rabs (sin b)) / (PI * PI * (Rabs f * Rabs f)))
      by (field; lra).
    rewrite !Rabs_sqr_eq.
    assert (Hsc := sin2_cos2 b). unfold Rsqr in Hsc.
    replace (2 * sin b * cos b / (2 * b) * (2 * sin b * cos b / (2 * b))
             + (1 - 2 * sin b * sin b - 1) / (2 * b)
               * ((1 - 2 * sin b * sin b - 1) / (2 * b)))
      with (sin b * sin b * (sin b * sin b + cos b * cos b) / (b * b))
      by (field; exact Hb).
    rewrite Hsc. unfold b. field. lra.
Qed.


(** X21.  Mirroring the frequency array conjugates the transform, sample by
    sample: the magnitude is even in the frequency. *)
Theorem continuous_transform_rect_hermitian (f : list R) :
  exists Xf,
    continuous_transform_rect f = Some Xf /\
    continuous_transform_rect (map Ropp f) = Some (map Cconj Xf) /\
    map Cabs (map Cconj Xf) = map Cabs Xf.
Proof.
  eexists. split; [apply continuous_transform_rect_map |].
  split.
  - rewrite continuous_transform_rect_map. f_equal.
    rewrite !map_map. apply map_ext. intros fi.
    destruct (Req_dec_T (- fi) 0) as [H0 | Hne];
      destruct (Req_dec_T fi 0) as [H0' | Hne']; try lra.
    + unfold Cconj, RtoC; cbn [fst snd]. f_equal. ring.
    + rewrite !transform_quotient_value by assumption.
      assert (Hd := two_pi_nonzero fi Hne').
      replace (2 * PI * - fi) with (- (2 * PI * fi)) by ring.
      rewrite sin_neg, cos_neg. unfold Cconj; cbn [fst snd].
      assert (HPI := PI_RGT_0).
      f_equal; field; repeat split; (assumption || lra).
  - rewrite map_map. apply map_ext. intros z. apply Cabs_conj.
Qed.

Lemma Cabs_le_sum (z : C) : Cabs z <= Rabs (fst z) + Rabs (snd z).
Proof.
  assert (H1 := Rabs_pos (fst z)). assert (H2 := Rabs_pos (snd z)).
  apply Cabs_le_of_sqr; [lra |].
  assert (Hx := Rabs_sqr_eq (fst z)). assert (Hy := Rabs_sqr_eq (snd z)).
  assert (0 <= Rabs (fst z) * Rabs (snd z)) by now apply Rmult_le_pos.
  nra.
Qed.

(** X22.  The value [T1] stored at [f = 0] is the limit of the quotient:
    for a nonzero frequency the transform differs from [T1] by at most
    [pi |f| + (2 pi f)^2 / 6]. *)
Theorem continuous_transform_limit_at_zero (f : R) :
  f <> 0 ->
  Cabs (Csub (X_at f) (RtoC T1))
  <= PI * Rabs f + (2 * PI * f) * (2 * PI * f) / 6.
Proof.
  intros Hf. assert (HPI := PI_RGT_0).
  rewrite X_at_value, T1_one by exact Hf.
  set (a := 2 * PI * f).
  assert (Ha : a <> 0) by now apply two_pi_nonzero.
  assert (Hapos : 0 < Rabs a) by now apply Rabs_pos_lt.
  eapply Rle_trans; [apply Cabs_le_sum |].
  unfold Csub, RtoC; cbn [fst snd].
  assert (Hre := sinc_near_one a Ha).
  assert (Him : Rabs ((cos a - 1) / a - 0) <= PI * Rabs f).
  { rewrite Rminus_0_r. unfold Rdiv. rewrite Rabs_mult, Rabs_inv.
    apply (Rmult_le_reg_r (Rabs a)); [exact Hapos |].
    rewrite Rmult_assoc, Rinv_l, Rmult_1_r by lra.
    destruct (one_minus_cos_le a) as [Hc0 Hc].
    rewrite Rabs_left1 by lra.
    assert (Habs : Rabs a = 2 * PI * Rabs f).
    { unfold a. rewrite !Rabs_mult, (Rabs_pos_eq 2), (Rabs_pos_eq PI) by lra.
      reflexivity. }
    assert (Hsq := Rabs_sqr_eq a).
    rewrite Habs in *. nra. }
  lra.
Qed.

Lemma continuous_transform_limit_at_zero_witness :
  Cabs (Csub (X_at (1 / 100)) (RtoC T1))
  <= PI * Rabs (1 / 100) + (2 * PI * (1 / 100)) * (2 * PI * (1 / 100)) / 6.
Proof. apply (continuous_transform_limit_at_zero (1 / 100)). lra. Defined.

End TransformShape.

(** ** The overlay of the magnitude plot *)

Section Overlay.
Import Numpy FourierLimit.




End Overlay.

(** ** The phase arrays *)

Section PhaseRange.
Import Numpy FourierLimit.








End PhaseRange.
